(** * Rufus: a relevance-guided crawler (src/rufus.py)

    A shallow embedding of the [Rufus] class: the three classification
    calls, the link analysis of a page, the depth-bounded recursive
    traversal [crawl_page], the report built by [save_results] and the
    entry point [crawl].

    The browser, the chat-completion client, the clock and the file system
    are outside the program.  They are gathered in a record [World] whose
    functions receive the trace of everything that has happened so far, so
    that the same question may get different answers at different times. *)

From Stdlib Require Import ZArith Lia Ascii String.
From stdpp Require Import base gmap sets list strings pretty.

#[local] Set Warnings "-clear-no-such-hyp".

(** ** Python string operations *)

(** Strings are sequences of bytes here; the operations below agree with
    Python's on ASCII text. *)
Module PyStr.

Definition dquote : string := String "034"%char EmptyString.

(** [s.startswith(p)] *)
Definition startswith (s p : string) : bool := String.prefix p s.

(** [s.endswith(p)] *)
Definition endswith (s p : string) : bool :=
  String.prefix (String.rev p) (String.rev s).

(** [c.isspace()] on ASCII: tab to carriage return, the four separators
    28 to 31, and the blank. *)
Definition isspace (c : ascii) : bool :=
  let n := nat_of_ascii c in
  ((9 <=? n) && (n <=? 13)) || ((28 <=? n) && (n <=? 32)).

Fixpoint lstrip (s : string) : string :=
  match s with
  | EmptyString => EmptyString
  | String c s' => if isspace c then lstrip s' else s
  end.

(** [s.strip()] *)
Definition strip (s : string) : string :=
  String.rev (lstrip (String.rev (lstrip s))).

Definition upper_char (c : ascii) : ascii :=
  let n := nat_of_ascii c in
  if (97 <=? n) && (n <=? 122) then ascii_of_nat (n - 32) else c.

(** [s.upper()] *)
Fixpoint upper (s : string) : string :=
  match s with
  | EmptyString => EmptyString
  | String c s' => String (upper_char c) (upper s')
  end.

Fixpoint split_go (sep : ascii) (cur : string) (s : string) : list string :=
  match s with
  | EmptyString => [String.rev cur]
  | String c s' =>
      if Ascii.eqb c sep then String.rev cur :: split_go sep EmptyString s'
      else split_go sep (String c cur) s'
  end.

(** [s.split(sep)] for a one-character separator *)
Definition split (sep : ascii) (s : string) : list string :=
  split_go sep EmptyString s.

(** [s[:n]] *)
Definition take (n : nat) (s : string) : string := substring 0 n s.

(** [sep.join(l)] *)
Definition join (sep : string) (l : list string) : string :=
  String.concat sep l.

End PyStr.

(** ** Insertion-ordered dictionaries

    [link_relevance] is iterated in insertion order, and assigning to a key
    that is present keeps its position. *)
Module Dict.

Fixpoint set {V : Type} (k : string) (v : V) (d : list (string * V))
  : list (string * V) :=
  match d with
  | [] => [(k, v)]
  | (k', v') :: d' =>
      if bool_decide (k' = k) then (k, v) :: d' else (k', v') :: set k v d'
  end.

End Dict.

(** ** Outcomes of calls that may raise *)

Inductive result (A : Type) : Type :=
| Ok (a : A)
| Raise (e : string).
Arguments Ok {A} a.
Arguments Raise {A} e.

(** ** Data *)

(** One [<a href>] element as Playwright shows it: each accessor may raise. *)
Record Anchor := {
  a_href : result (option string);    (* link.get_attribute('href') *)
  a_text : result string;             (* link.inner_text() *)
  a_parent : result (option string)   (* parentElement.textContent *)
}.

(** What the shared [page] object shows after a navigation. *)
Record PageView := {
  pv_idle : result unit;              (* page.wait_for_load_state *)
  pv_body : result string;            (* page.inner_text('body') *)
  pv_title : result string;           (* page.title() *)
  pv_links : result (list Anchor)     (* page.query_selector_all('a[href]') *)
}.

(** The value stored in [page_data] for a relevant page. *)
Record PageRecord := {
  pr_url : string;
  pr_depth : Z;
  pr_content : string;
  pr_crawl_time : string;
  pr_title : string;
  pr_matched_keywords : list string
}.

Record Metadata := {
  md_base_url : string;
  md_instruction : string;
  md_crawl_time : string;
  md_total_pages : nat;
  md_relevant_pages : nat;
  md_keywords_used : list string
}.

(** The [results] dictionary of [save_results]. *)
Record Report := {
  r_metadata : Metadata;
  r_relevance_map : gmap string bool;
  r_depth_analysis : gmap string (list string * nat);
  r_page_data : gmap string PageRecord
}.

(** What a file holds after [open(filename, 'w')], line 285: nothing
    complete until [json.dump], line 286, has returned. *)
Inductive file : Type :=
| Incomplete
| Written (report : Report).

(** Records written by [logging.info] and [logging.error]. *)
Inductive log_record : Type :=
| LogGeneratedKeywords (kws : list string)
| LogKeywordsError (e : string)
| LogContentRelevance (b : bool)
| LogRelevanceError (e : string)
| LogShouldFollow (href : string) (b : bool)
| LogLinkError (e : string)
| LogLinkAnalysisError (e : string)
| LogCrawling (depth : Z) (url : string)
| LogCrawlError (url : string) (e : string)
| LogResultsSaved (filename : string)
| LogCrawlCompleted (filename : string)
| LogCrawlFailed (e : string).

(** The trace: what the crawler did, in order. *)
Inductive event : Type :=
| EvVisit (url : string) (depth : Z)      (* visited_urls.add(url) *)
| EvExpand (instruction : string)         (* get_semantic_keywords called *)
| EvRelevance (content : string)          (* is_content_relevant called *)
| EvFollow (link_text href surrounding : string) (* should_follow_link called *)
| EvGoto (url : string)                   (* page.goto(url) *)
| EvLog (r : log_record).

Global Instance log_record_eq_dec : EqDecision log_record.
Proof. solve_decision. Defined.
Global Instance event_eq_dec : EqDecision event.
Proof. solve_decision. Defined.

(** The environment of a run. *)
Record World := {
  (* urllib.parse.urljoin; raises on a malformed URL *)
  urljoin : string → string → result string;
  (* client.chat.completions.create(model, system, user) followed by
     response.choices[0].message.content *)
  chat_create : list event → string → string → string → result string;
  (* page.goto *)
  page_goto : list event → string → result PageView;
  (* datetime.now().isoformat() and .strftime('%Y%m%d_%H%M%S') *)
  now_isoformat : list event → string;
  now_stamp : list event → string;
  (* open(filename, 'w'), line 285 *)
  open_write : list event → string → result unit;
  (* json.dump, line 286, on the file opened *)
  write_json : list event → string → result unit;
  (* chromium.launch and browser.new_page; browser.close *)
  launch_browser : result unit;
  close_browser : result unit
}.

(** The fields of [self], the shared page, the files written, the trace. *)
Record State := {
  visited_urls : gset string;
  page_relevance : gmap string bool;
  page_data : gmap string PageRecord;
  depth_data : gmap Z (list string);
  keywords : list string;
  page : PageView;
  files : gmap string file;
  trace : list event
}.

Definition blank_page : PageView :=
  {| pv_idle := Ok tt; pv_body := Ok EmptyString; pv_title := Ok EmptyString;
     pv_links := Ok [] |}.

(** [Rufus.__init__] *)
Definition init : State :=
  {| visited_urls := ∅; page_relevance := ∅; page_data := ∅;
     depth_data := ∅; keywords := []; page := blank_page; files := ∅;
     trace := [] |}.

Definition set_visited_urls (v : gset string) (st : State) : State :=
  {| visited_urls := v; page_relevance := page_relevance st;
     page_data := page_data st; depth_data := depth_data st;
     keywords := keywords st; page := page st; files := files st;
     trace := trace st |}.

Definition set_page_relevance (m : gmap string bool) (st : State) : State :=
  {| visited_urls := visited_urls st; page_relevance := m;
     page_data := page_data st; depth_data := depth_data st;
     keywords := keywords st; page := page st; files := files st;
     trace := trace st |}.

Definition set_page_data (m : gmap string PageRecord) (st : State) : State :=
  {| visited_urls := visited_urls st; page_relevance := page_relevance st;
     page_data := m; depth_data := depth_data st;
     keywords := keywords st; page := page st; files := files st;
     trace := trace st |}.

Definition set_depth_data (m : gmap Z (list string)) (st : State) : State :=
  {| visited_urls := visited_urls st; page_relevance := page_relevance st;
     page_data := page_data st; depth_data := m;
     keywords := keywords st; page := page st; files := files st;
     trace := trace st |}.

Definition set_keywords (k : list string) (st : State) : State :=
  {| visited_urls := visited_urls st; page_relevance := page_relevance st;
     page_data := page_data st; depth_data := depth_data st;
     keywords := k; page := page st; files := files st;
     trace := trace st |}.

Definition set_page (p : PageView) (st : State) : State :=
  {| visited_urls := visited_urls st; page_relevance := page_relevance st;
     page_data := page_data st; depth_data := depth_data st;
     keywords := keywords st; page := p; files := files st;
     trace := trace st |}.

Definition set_files (f : gmap string file) (st : State) : State :=
  {| visited_urls := visited_urls st; page_relevance := page_relevance st;
     page_data := page_data st; depth_data := depth_data st;
     keywords := keywords st; page := page st; files := f;
     trace := trace st |}.

Definition emit (e : event) (st : State) : State :=
  {| visited_urls := visited_urls st; page_relevance := page_relevance st;
     page_data := page_data st; depth_data := depth_data st;
     keywords := keywords st; page := page st; files := files st;
     trace := trace st ++ [e] |}.

(** ** A state monad with exceptions

    A raised exception keeps the mutations made before it. *)
Definition M (A : Type) : Type := State → result A * State.

Definition ret {A} (a : A) : M A := λ st, (Ok a, st).

Definition bind {A B} (m : M A) (k : A → M B) : M B :=
  λ st, match m st with
        | (Ok a, st') => k a st'
        | (Raise e, st') => (Raise e, st')
        end.

Definition gets {A} (f : State → A) : M A := λ st, (Ok (f st), st).

Definition modify (f : State → State) : M unit := λ st, (Ok tt, f st).

Definition lift {A} (r : result A) : M A := λ st, (r, st).

(** [try: m except Exception as e: h e] *)
Definition try_catch {A} (m : M A) (h : string → M A) : M A :=
  λ st, match m st with
        | (Ok a, st') => (Ok a, st')
        | (Raise e, st') => h e st'
        end.

Definition log (r : log_record) : M unit := modify (emit (EvLog r)).

Notation "'let*' x := m 'in' k" := (bind m (λ x, k))
  (at level 10, x name, m at level 100, k at level 200).

(** ** The prompts (f-strings of lines 49, 86 and 132) *)

Definition keywords_prompt (instruction : string) : string :=
  "Generate semantically related keywords and phrases for this instruction:
        
        Instruction: " +:+ PyStr.dquote +:+ instruction +:+ PyStr.dquote +:+ "
        
        Consider:
        1. Direct synonyms and related terms
        2. Industry-specific terminology
        3. Common abbreviations
        4. Related concepts and topics
        5. Contextual variations
        
        Return ONLY a comma-separated list of keywords, no explanations.".

Definition relevance_prompt (content instruction : string)
    (keywords : list string) : string :=
  "Analyze if this content is relevant to the instruction and keywords.

        Instruction: " +:+ PyStr.dquote +:+ instruction +:+ PyStr.dquote +:+ "
        Keywords: " +:+ PyStr.join ", " keywords +:+ "
        
        Content (excerpt):
        " +:+ PyStr.dquote +:+ PyStr.dquote +:+ PyStr.dquote +:+ "
        " +:+ PyStr.take 2000 content +:+ "
        " +:+ PyStr.dquote +:+ PyStr.dquote +:+ PyStr.dquote +:+ "
        
        Consider:
        1. Direct keyword matches
        2. Semantic relationship to instruction
        3. Context and meaning
        4. Content quality and depth
        5. Information value
        
        Answer ONLY with TRUE or FALSE.".

Definition follow_prompt (link_text href instruction : string)
    (keywords : list string) (surrounding_text : string) : string :=
  "Should we follow this link based on the instruction and context?
        
        Instruction: " +:+ PyStr.dquote +:+ instruction +:+ PyStr.dquote +:+ "
        Keywords: " +:+ PyStr.join ", " keywords +:+ "
        
        Link Analysis:
        - Link Text: " +:+ PyStr.dquote +:+ link_text +:+ PyStr.dquote +:+ "
        - URL: " +:+ href +:+ "
        - Surrounding Context: " +:+ PyStr.dquote +:+ surrounding_text +:+ PyStr.dquote +:+ "
        
        Consider:
        1. Relevance to instruction
        2. Keyword matches
        3. URL structure/path
        4. Link context
        5. Potential information value
        
        Answer ONLY with TRUE or FALSE.".

(** What a Python call hands back to its caller. *)
Inductive value : Type :=
| PyNone
| PyStr (s : string)
| PyReport (r : Report).

(** ** The crawler *)

Section Crawler.

Context (w : World).

(** One chat completion, answered by the world at the current trace. *)
Definition chat (model system user : string) : M string :=
  λ st, (chat_create w (trace st) model system user, st).

(** [get_semantic_keywords], lines 43 to 78 *)
Definition get_semantic_keywords (instruction : string) : M (list string) :=
  let* _ := modify (emit (EvExpand instruction)) in
  let prompt := keywords_prompt instruction in
  try_catch
    (let* content :=
       chat "o1-mini"
         "You are a semantic analysis expert. Return only a comma-separated list of keywords."
         prompt in
     let keywords := PyStr.strip <$> PyStr.split "," content in
     let* _ := log (LogGeneratedKeywords keywords) in
     ret keywords)
    (λ e, let* _ := log (LogKeywordsError e) in ret []).

(** [is_content_relevant], lines 80 to 121 *)
Definition is_content_relevant (content instruction : string)
    (keywords : list string) : M bool :=
  let* _ := modify (emit (EvRelevance content)) in
  let prompt := relevance_prompt content instruction keywords in
  try_catch
    (let* answer :=
       chat "gpt-4o"
         "You are a content relevance analyst. Respond only with TRUE or FALSE."
         prompt in
     let is_relevant := bool_decide (PyStr.upper (PyStr.strip answer) = "TRUE") in
     let* _ := log (LogContentRelevance is_relevant) in
     ret is_relevant)
    (λ e, let* _ := log (LogRelevanceError e) in ret false).

(** [should_follow_link], lines 123 to 167 *)
Definition should_follow_link (link_text href instruction : string)
    (keywords : list string) (surrounding_text : string) : M bool :=
  let* _ := modify (emit (EvFollow link_text href surrounding_text)) in
  let prompt :=
    follow_prompt link_text href instruction keywords surrounding_text in
  try_catch
    (let* answer :=
       chat "gpt-4"
         "You are a link relevance analyst. Respond only with TRUE or FALSE."
         prompt in
     let should_follow := bool_decide (PyStr.upper (PyStr.strip answer) = "TRUE") in
     let* _ := log (LogShouldFollow href should_follow) in
     ret should_follow)
    (λ e, let* _ := log (LogLinkError e) in ret false).

(** The body of the [for link in links] loop, lines 180 to 192.  It
    assigns to [link_relevance] in its last statement only. *)
Definition analyze_link (current_url base_url instruction : string)
    (link : Anchor) (link_relevance : list (string * bool))
  : M (list (string * bool)) :=
  let* href := lift (a_href link) in
  match href with
  | Some (String c h) =>
      let* absolute_url := lift (urljoin w current_url (String c h)) in
      let* visited := gets visited_urls in
      if PyStr.startswith absolute_url base_url
         && negb (bool_decide (absolute_url ∈ visited))
      then
        let* link_text := lift (a_text link) in
        let* parent := lift (a_parent link) in
        let surrounding_text :=
          match parent with
          | Some (String c' p) => PyStr.take 200 (String c' p)
          | _ => EmptyString
          end in
        let* kws := gets keywords in
        let* is_relevant :=
          should_follow_link link_text absolute_url instruction kws
            surrounding_text in
        ret (Dict.set absolute_url is_relevant link_relevance)
      else ret link_relevance
  | _ => ret link_relevance
  end.

(** The loop of [analyze_page_links] under its [try]: an exception in
    one iteration is logged and ends the loop with the entries gathered
    before it. *)
Fixpoint analyze_links (current_url base_url instruction : string)
    (links : list Anchor) (link_relevance : list (string * bool))
    (st : State) : list (string * bool) * State :=
  match links with
  | [] => (link_relevance, st)
  | link :: rest =>
      match analyze_link current_url base_url instruction link
              link_relevance st with
      | (Ok link_relevance', st') =>
          analyze_links current_url base_url instruction rest
            link_relevance' st'
      | (Raise e, st') =>
          (link_relevance, emit (EvLog (LogLinkAnalysisError e)) st')
      end
  end.

(** [analyze_page_links], lines 169 to 198 *)
Definition analyze_page_links (current_url base_url instruction : string)
  : M (list (string * bool)) :=
  λ st,
    match pv_links (page st) with
    | Ok links =>
        let '(link_relevance, st') :=
          analyze_links current_url base_url instruction links [] st in
        (Ok link_relevance, st')
    | Raise e => (Ok [], emit (EvLog (LogLinkAnalysisError e)) st)
    end.

(** [page.goto(url)]: on success the shared page shows the new view. *)
Definition goto (url : string) : M unit :=
  λ st,
    let st := emit (EvGoto url) st in
    match page_goto w (trace st) url with
    | Ok pv => (Ok tt, set_page pv st)
    | Raise e => (Raise e, st)
    end.

(** [self.depth_data[depth].append(url)] *)
Definition depth_append (depth : Z) (url : string) : M unit :=
  λ st,
    match depth_data st !! depth with
    | Some urls =>
        (Ok tt, set_depth_data (<[depth := urls ++ [url]]> (depth_data st)) st)
    | None => (Raise "KeyError", st)
    end.

(** Lines 210 to 213: enter the URL and make sure its depth has a list. *)
Definition enter (current_url : string) (depth : Z) (st : State) : State :=
  let st :=
    emit (EvVisit current_url depth)
      (set_visited_urls ({[current_url]} ∪ visited_urls st) st) in
  match depth_data st !! depth with
  | Some _ => st
  | None => set_depth_data (<[depth := []]> (depth_data st)) st
  end.

(** Lines 216 to 241: the keywords, the page, its verdict and its
    record. *)
Definition load_page (current_url instruction : string) (depth : Z)
  : M unit :=
  let* kws := gets keywords in
  let* _ :=
    match kws with
    | [] =>
        let* kws' := get_semantic_keywords instruction in
        modify (set_keywords kws')
    | _ :: _ => ret tt
    end in
  let* _ := goto current_url in
  let* _ := log (LogCrawling depth current_url) in
  let* _ := (λ st, (pv_idle (page st), st)) in
  let* content := (λ st, (pv_body (page st), st)) in
  let* kws := gets keywords in
  let* is_relevant := is_content_relevant content instruction kws in
  let* _ :=
    modify (λ st,
      set_page_relevance (<[current_url := is_relevant]> (page_relevance st)) st) in
  if is_relevant then
    let* crawl_time := (λ st, (Ok (now_isoformat w (trace st)), st)) in
    let* title := (λ st, (pv_title (page st), st)) in
    let* kws := gets keywords in
    let* _ :=
      modify (λ st,
        set_page_data
          (<[current_url :=
               {| pr_url := current_url; pr_depth := depth;
                  pr_content := content; pr_crawl_time := crawl_time;
                  pr_title := title; pr_matched_keywords := kws |}]>
             (page_data st)) st) in
    depth_append depth current_url
  else ret tt.

(** Lines 216 to 245: the part of the [try] block before the loop over
    [link_relevance].  The result is the dictionary the loop runs over;
    it is empty when the page is at [max_depth]. *)
Definition visit_page (current_url base_url instruction : string)
    (depth max_depth : Z) : M (list (string * bool)) :=
  let* _ := load_page current_url instruction depth in
  if bool_decide (depth < max_depth)%Z then
    analyze_page_links current_url base_url instruction
  else ret [].

(** The loop of lines 247 to 252, over the recursive call [rec]. *)
Section Links.
Variable rec : string → State → option State.

Fixpoint crawl_links (link_relevance : list (string * bool)) (st : State)
  : option State :=
  match link_relevance with
  | [] => Some st
  | (url, relevant) :: rest =>
      if relevant && negb (bool_decide (url ∈ visited_urls st)) then
        match rec url st with
        | Some st' => crawl_links rest st'
        | None => None
        end
      else crawl_links rest st
  end.
End Links.

(** [crawl_page], lines 200 to 255.  [fuel] bounds the nesting of the
    recursive calls; [None] means it ran out. *)
Fixpoint crawl_page (fuel : nat) (current_url base_url instruction : string)
    (depth max_depth : Z) (st : State) : option State :=
  if bool_decide (depth > max_depth)%Z
     || bool_decide (current_url ∈ visited_urls st)
  then Some st
  else
    match fuel with
    | O => None
    | S fuel' =>
        let st := enter current_url depth st in
        match visit_page current_url base_url instruction depth max_depth st with
        | (Ok link_relevance, st') =>
            crawl_links
              (λ url, crawl_page fuel' url base_url instruction
                        (depth + 1) max_depth)
              link_relevance st'
        | (Raise e, st') =>
            Some (emit (EvLog (LogCrawlError current_url e)) st')
        end
    end.

(** The nesting of calls below a call at [depth] never exceeds this. *)
Definition crawl_fuel (depth max_depth : Z) : nat :=
  Z.to_nat (max_depth + 1 - depth).

(** [crawl_page] with the fuel that is always enough: the second branch
    is never taken. *)
Definition crawl_page_run (current_url base_url instruction : string)
    (depth max_depth : Z) : M unit :=
  λ st,
    match crawl_page (crawl_fuel depth max_depth) current_url base_url
            instruction depth max_depth st with
    | Some st' => (Ok tt, st')
    | None => (Ok tt, st)
    end.

(** The [results] dictionary, lines 266 to 283. *)
Definition build_results (base_url instruction : string) (st : State)
  : Report :=
  {| r_metadata :=
       {| md_base_url := base_url;
          md_instruction := instruction;
          md_crawl_time := now_isoformat w (trace st);
          md_total_pages := size (visited_urls st);
          md_relevant_pages :=
            length (filter (λ v, v = true) (map_to_list (page_relevance st)).*2);
          md_keywords_used := keywords st |};
     r_relevance_map := page_relevance st;
     r_depth_analysis :=
       kmap (pretty : Z → string)
         ((λ urls, (urls, length urls)) <$> depth_data st);
     r_page_data := page_data st |}.

(** The file name of lines 263 and 264, after the history [h]. *)
Definition report_name (h : list event) : string :=
  "semantic_results_" +:+ now_stamp w h +:+ ".json".

(** How lines 285 and 286 end: the first failure of the two. *)
Definition write_outcome (h : list event) (filename : string)
  : result unit :=
  match open_write w h filename with
  | Ok _ => write_json w h filename
  | Raise e => Raise e
  end.

(** [save_results], lines 257 to 289.  The file is opened for writing,
    which creates or empties it, before the report is dumped into it:
    a failing dump leaves it incomplete. *)
Definition save_results (base_url instruction : string) : M string :=
  λ st,
    let filename := report_name (trace st) in
    let results := build_results base_url instruction st in
    match open_write w (trace st) filename with
    | Raise e => (Raise e, st)
    | Ok _ =>
        match write_json w (trace st) filename with
        | Raise e =>
            (Raise e, set_files (<[filename := Incomplete]> (files st)) st)
        | Ok _ =>
            (Ok filename,
             emit (EvLog (LogResultsSaved filename))
               (set_files (<[filename := Written results]> (files st)) st))
        end
    end.

(** The two normalisations of lines 297 to 300. *)
Definition normalize_base_url (base_url : string) : string :=
  let base_url :=
    if PyStr.startswith base_url "http://"
       || PyStr.startswith base_url "https://"
    then base_url else "https://" +:+ base_url in
  if PyStr.endswith base_url "/" then base_url else base_url +:+ "/".

(** [crawl], lines 291 to 314.  It has no [return] statement. *)
Definition crawl (base_url instruction : string) (max_depth : Z)
  : State → result value * State :=
  λ st,
    let base_url := normalize_base_url base_url in
    match launch_browser w with
    | Raise e => (Raise e, st)
    | Ok _ =>
        let st := set_page blank_page st in
        let '(_, st') :=
          try_catch
            (let* _ :=
               crawl_page_run base_url base_url instruction 0 max_depth in
             let* filename := save_results base_url instruction in
             log (LogCrawlCompleted filename))
            (λ e, log (LogCrawlFailed e)) st in
        match close_browser w with
        | Ok _ => (Ok PyNone, st')
        | Raise e => (Raise e, st')
        end
    end.

End Crawler.

(** * Vocabulary of the properties *)

(** [st] with [evs] added to its trace. *)
Definition emits (evs : list event) (st : State) : State :=
  {| visited_urls := visited_urls st; page_relevance := page_relevance st;
     page_data := page_data st; depth_data := depth_data st;
     keywords := keywords st; page := page st; files := files st;
     trace := trace st ++ evs |}.

(** Events an analysis of links may produce: no visit, and only
    classifications of in-domain, unvisited URLs. *)
Definition analysis_event (base_url : string) (visited : gset string)
    (e : event) : Prop :=
  match e with
  | EvVisit _ _ | EvExpand _ | EvGoto _ | EvRelevance _ => False
  | EvFollow _ href _ =>
      PyStr.startswith href base_url = true ∧ href ∉ visited
  | EvLog _ => True
  end.

(** What is known of the entries of [link_relevance]: they were there
    before, or they were classified in [evs]. *)
Definition classified_in (base_url : string) (evs : list event)
    (old new : list (string * bool)) : Prop :=
  ∀ u b, (u, b) ∈ new →
    (u, b) ∈ old
    ∨ (PyStr.startswith u base_url = true
       ∧ ∃ link_text sur, EvFollow link_text u sur ∈ evs).

(** Events that the processing of one page may produce after the page was
    entered: no further visit, and classifications only of in-domain URLs
    that are not visited. *)
Definition page_event (base_url : string) (visited : gset string)
    (e : event) : Prop :=
  match e with
  | EvVisit _ _ => False
  | EvFollow _ href _ =>
      PyStr.startswith href base_url = true ∧ href ∉ visited
  | _ => True
  end.

(** What the relevance verdict of a page leaves in the three result maps.
    [r] is the outcome of the page's processing. *)
Definition page_outcome {A} (current_url : string) (depth : Z)
    (st : State) (r : result A) (st' : State) : Prop :=
  (* nothing recorded: the page raised before its verdict *)
  (page_relevance st' = page_relevance st
   ∧ page_data st' = page_data st
   ∧ depth_data st' = depth_data st
   ∧ ∃ e, r = Raise e)
  ∨ ∃ b,
      page_relevance st' = <[current_url := b]> (page_relevance st)
      ∧ ((* a verdict only *)
         (page_data st' = page_data st
          ∧ depth_data st' = depth_data st
          ∧ (b = true → ∃ e, r = Raise e))
         ∨ (* a relevant page: its record, and its URL in the depth index *)
           (b = true
            ∧ ∃ rec,
                page_data st' = <[current_url := rec]> (page_data st)
                ∧ ((∃ urls,
                      depth_data st !! depth = Some urls
                      ∧ depth_data st'
                        = <[depth := urls ++ [current_url]]> (depth_data st))
                   ∨ (depth_data st !! depth = None
                      ∧ depth_data st' = depth_data st
                      ∧ ∃ e, r = Raise e)))).

Record visit_summary (current_url base_url : string) (depth max_depth : Z)
    (st : State) (r : result (list (string * bool))) (st' : State)
    (evs : list event) : Prop := {
  vs_visited : visited_urls st' = visited_urls st;
  vs_files : files st' = files st;
  vs_trace : trace st' = trace st ++ evs;
  vs_events : Forall (page_event base_url (visited_urls st)) evs;
  vs_leaf :
    ¬ (depth < max_depth)%Z →
    (∀ link_text href sur, EvFollow link_text href sur ∉ evs)
    ∧ ∀ lr, r = Ok lr → lr = [];
  vs_links : ∀ lr, r = Ok lr → classified_in base_url evs [] lr;
  vs_keywords :
    keywords st ≠ [] →
    keywords st' = keywords st ∧ ∀ i, EvExpand i ∉ evs;
  vs_outcome : page_outcome current_url depth st r st'
}.

(** The state in which the loop over the links of a page starts or, when
    the page raised, the state left by the handler of line 255. *)
Definition after_page {A} (current_url : string) (r : result A)
    (st : State) : State :=
  match r with
  | Ok _ => st
  | Raise e => emit (EvLog (LogCrawlError current_url e)) st
  end.

(** The three ways a page can end, seen in the result maps. *)
Definition page_result {A} (current_url : string) (depth : Z)
    (st : State) (r : result A) (st' : State) : Prop :=
  (* no verdict: the page raised before line 229 *)
  (page_relevance st' = page_relevance st
   ∧ page_data st' = page_data st
   ∧ depth_data st' = depth_data (enter current_url depth st)
   ∧ ∃ e, r = Raise e)
  (* a verdict and no record *)
  ∨ (∃ b,
       page_relevance st' = <[current_url := b]> (page_relevance st)
       ∧ page_data st' = page_data st
       ∧ depth_data st' = depth_data (enter current_url depth st)
       ∧ (b = true → ∃ e, r = Raise e))
  (* a relevant page with its record and its place in the depth index *)
  ∨ (∃ rec,
       page_relevance st' = <[current_url := true]> (page_relevance st)
       ∧ page_data st' = <[current_url := rec]> (page_data st)
       ∧ depth_data st'
         = <[depth := default [] (depth_data st !! depth) ++ [current_url]]>
             (depth_data st)).

Record page_step (current_url base_url : string) (depth max_depth : Z)
    (st : State) (r : result (list (string * bool))) (st' : State)
    (evs : list event) : Prop := {
  ps_visited : visited_urls st' = {[current_url]} ∪ visited_urls st;
  ps_files : files st' = files st;
  ps_trace : trace st' = trace st ++ EvVisit current_url depth :: evs;
  ps_events :
    Forall (page_event base_url ({[current_url]} ∪ visited_urls st)) evs;
  ps_leaf :
    ¬ (depth < max_depth)%Z →
    (∀ link_text href sur, EvFollow link_text href sur ∉ evs)
    ∧ ∀ lr, r = Ok lr → lr = [];
  ps_links : ∀ lr, r = Ok lr → classified_in base_url evs [] lr;
  ps_error : ∀ e, r = Raise e → EvLog (LogCrawlError current_url e) ∈ evs;
  ps_keywords :
    keywords st ≠ [] →
    keywords st' = keywords st ∧ ∀ i, EvExpand i ∉ evs;
  ps_result : page_result current_url depth st r st'
}.

(** The URLs entered in a stretch of the trace, in order. *)
Definition visit_urls (evs : list event) : list string :=
  omap (λ e, match e with EvVisit u _ => Some u | _ => None end) evs.

(** What one traversal adds to the trace and to the visited set, seen from
    the state [st0] in which the call at [url0], [depth0] started. *)
Definition run_inv (url0 : string) (depth0 max_depth : Z) (st0 st : State)
  : Prop :=
  ∃ evs,
    trace st = trace st0 ++ evs
    ∧ NoDup (visit_urls evs)
    ∧ (∀ u, u ∈ visit_urls evs → u ∉ visited_urls st0)
    ∧ visited_urls st = visited_urls st0 ∪ list_to_set (visit_urls evs)
    ∧ ∀ u d, EvVisit u d ∈ evs →
        (u = url0 ∧ d = depth0) ∨ (depth0 < d ≤ max_depth)%Z.

(** Seen from the state [st0] in which a call at [url0] started: every
    classified link is in the domain, and so is every URL entered, the
    first apart. *)
Definition confined (url0 base_url : string) (st0 st : State) : Prop :=
  ∃ evs,
    trace st = trace st0 ++ evs
    ∧ (∀ link_text href sur,
         EvFollow link_text href sur ∈ evs →
         PyStr.startswith href base_url = true)
    ∧ ∀ u, u ∈ visited_urls st →
        u ∈ visited_urls st0 ∨ u = url0
        ∨ PyStr.startswith u base_url = true.

(** Every URL with a verdict is visited, and a visited URL without a
    verdict has an error record of line 255. *)
Definition relevance_inv (st : State) : Prop :=
  (∀ u, is_Some (page_relevance st !! u) → u ∈ visited_urls st)
  ∧ ∀ u, u ∈ visited_urls st → page_relevance st !! u = None →
      ∃ e, EvLog (LogCrawlError u e) ∈ trace st.

(** What the depth index holds, and for which depths. *)
Definition depth_index_inv (st : State) : Prop :=
  (* no URL twice in a list *)
  (∀ d urls, depth_data st !! d = Some urls → NoDup urls)
  (* a listed URL was entered at that depth, has a record, and is relevant *)
  ∧ (∀ d urls u,
       depth_data st !! d = Some urls → u ∈ urls →
       u ∈ visited_urls st
       ∧ is_Some (page_data st !! u)
       ∧ page_relevance st !! u = Some true
       ∧ EvVisit u d ∈ trace st)
  (* no URL at two depths *)
  ∧ (∀ d1 d2 urls1 urls2 u,
       depth_data st !! d1 = Some urls1 → depth_data st !! d2 = Some urls2 →
       u ∈ urls1 → u ∈ urls2 → d1 = d2)
  (* a depth at which a URL was entered has a list *)
  ∧ ∀ u d, EvVisit u d ∈ trace st → is_Some (depth_data st !! d).

(** The fields of [self] that make up the results agree. *)
Definition same_results (st1 st2 : State) : Prop :=
  visited_urls st2 = visited_urls st1
  ∧ page_relevance st2 = page_relevance st1
  ∧ page_data st2 = page_data st1
  ∧ depth_data st2 = depth_data st1
  ∧ keywords st2 = keywords st1.

(** The loop of lines 247 to 252 over [link_relevance], from the state
    [st] to the state [st']: an entry judged not followable, or whose URL
    is visited by then, is passed over; for any other entry [crawl_page]
    runs at [depth] from the state reached so far, and the loop goes on
    from the state in which that call returned. *)
Inductive descends (w : World) (fuel : nat) (base_url instruction : string)
    (depth max_depth : Z)
  : list (string * bool) → State → State → Prop :=
| descends_nil st :
    descends w fuel base_url instruction depth max_depth [] st st
| descends_skip u b lr st st' :
    b = false ∨ u ∈ visited_urls st →
    descends w fuel base_url instruction depth max_depth lr st st' →
    descends w fuel base_url instruction depth max_depth ((u, b) :: lr) st st'
| descends_follow u lr st st1 st' below :
    u ∉ visited_urls st →
    crawl_page w fuel u base_url instruction depth max_depth st = Some st1 →
    trace st1 = trace st ++ EvVisit u depth :: below →
    (∀ u' d', EvVisit u' d' ∈ below → (depth < d')%Z) →
    descends w fuel base_url instruction depth max_depth lr st1 st' →
    descends w fuel base_url instruction depth max_depth ((u, true) :: lr)
      st st'.

(** The event is a log record. *)
Definition is_log (e : event) : Prop :=
  match e with EvLog _ => True | _ => False end.


(** ** A small site for examples *)

Module Demo.

Definition home : string := "https://example.com/".
Definition pricing : string := "https://example.com/pricing".
Definition careers : string := "https://example.com/careers".
Definition docs : string := "https://example.com/docs".
Definition elsewhere : string := "https://other.org/pricing".

Definition anchor (href text : string) : Anchor :=
  {| a_href := Ok (Some href); a_text := Ok text;
     a_parent := Ok (Some text) |}.

Definition view (body : string) (links : list Anchor) : PageView :=
  {| pv_idle := Ok tt; pv_body := Ok body; pv_title := Ok body;
     pv_links := Ok links |}.

(** The home page links to two pages worth following, to one that is
    not, and to another site; the pricing page links back to the home
    page; the docs page does not load. *)
Definition site (url : string) : result PageView :=
  if bool_decide (url = home) then
    Ok (view "Welcome"
          [anchor "/pricing" "Pricing"; anchor "/careers" "Careers";
           anchor elsewhere "Partner"; anchor "/docs" "Docs"])
  else if bool_decide (url = pricing) then
    Ok (view "Plans and prices" [anchor "/" "Home"; anchor "/docs" "Docs"])
  else if bool_decide (url = docs) then Raise "Timeout 30000ms exceeded"
  else Raise "net::ERR_ABORTED".

Definition join (current_url href : string) : result string :=
  Ok (if PyStr.startswith href "/" then "https://example.com" +:+ href
      else href).

(** The oracle finds every page relevant and every link but the careers
    one worth following; the keyword model answers or is down. *)
Definition oracle (keywords_up : bool) (h : list event)
    (model system user : string) : result string :=
  if bool_decide (model = "o1-mini") then
    if keywords_up then Ok "pricing, plans " else Raise "timeout"
  else if bool_decide (model = "gpt-4o") then Ok "TRUE"
  else
    match last h with
    | Some (EvFollow _ href _) =>
        if bool_decide (href = careers) then Ok "FALSE" else Ok " true"
    | _ => Raise "unexpected"
    end.


Definition world (keywords_up disk_ok : bool) : World :=
  {| urljoin := join;
     chat_create := oracle keywords_up;
     page_goto := λ _ url, site url;
     now_isoformat := λ _, "2024-11-05T10:00:00";
     now_stamp := λ _, "20241105_100000";
     open_write := λ _ _, Ok tt;
     write_json := λ _ _, if disk_ok then Ok tt else Raise "disk full";
     launch_browser := Ok tt;
     close_browser := Ok tt |}.

(** The state after [crawl] of example.com for pricing information. *)
Definition run (keywords_up disk_ok : bool) (max_depth : Z) : State :=
  (crawl (world keywords_up disk_ok) "example.com" "pricing information"
     max_depth init).2.

(** The visits and link classifications of a trace. *)
Definition steps (evs : list event) : list event :=
  List.filter
    (λ e, match e with EvVisit _ _ | EvFollow _ _ _ => true | _ => false end)
    evs.

Definition expansions (evs : list event) : nat :=
  length (List.filter
            (λ e, match e with EvExpand _ => true | _ => false end) evs).

End Demo.

(** ** Vocabulary of the further properties *)

(** The URL has a scheme [crawl] accepts. *)
Definition has_scheme (url : string) : bool :=
  PyStr.startswith url "http://" || PyStr.startswith url "https://".

(** The string does not start with white space. *)
Definition clean_start (s : string) : Prop :=
  match s with
  | EmptyString => True
  | String c _ => PyStr.isspace c = false
  end.

(** How often [sep] occurs in [s]. *)
Fixpoint occurrences (sep : ascii) (s : string) : nat :=
  match s with
  | EmptyString => 0
  | String c s' =>
      (if Ascii.eqb c sep then 1 else 0) + occurrences sep s'
  end.

(** Nothing but the trace differs, and the trace has grown. *)
Definition only_trace_grows (st st' : State) : Prop :=
  same_results st st'
  ∧ page st' = page st
  ∧ files st' = files st
  ∧ ∃ evs, trace st' = trace st ++ evs.

(** The URLs the browser was sent to, the instructions keywords were
    asked for, and the texts whose relevance was asked, in a stretch of
    the trace. *)
Definition goto_urls (evs : list event) : list string :=
  omap (λ e, match e with EvGoto u => Some u | _ => None end) evs.

Definition expand_calls (evs : list event) : list string :=
  omap (λ e, match e with EvExpand i => Some i | _ => None end) evs.

Definition relevance_calls (evs : list event) : list string :=
  omap (λ e, match e with EvRelevance c => Some c | _ => None end) evs.

(** The record of a page is the one [crawl_page] builds for [url] at
    [depth] from what the page shows. *)
Definition record_of (url : string) (depth : Z) (st : State)
    (rec : PageRecord) : Prop :=
  pr_url rec = url
  ∧ pr_depth rec = depth
  ∧ pr_matched_keywords rec = keywords st
  ∧ pv_body (page st) = Ok (pr_content rec)
  ∧ pv_title (page st) = Ok (pr_title rec).

(** What was there in [st0] is still there in [st], unchanged: visited
    URLs, files, verdicts and records of visited URLs, the trace as a
    prefix, and the lists of the depth index as prefixes. *)
Definition grows (st0 st : State) : Prop :=
  visited_urls st0 ⊆ visited_urls st
  ∧ files st = files st0
  ∧ (∃ evs, trace st = trace st0 ++ evs)
  ∧ (∀ u, u ∈ visited_urls st0 →
       page_relevance st !! u = page_relevance st0 !! u
       ∧ page_data st !! u = page_data st0 !! u)
  ∧ ∀ d urls, depth_data st0 !! d = Some urls →
      ∃ more, depth_data st !! d = Some (urls ++ more).



(** The depths that have a list are those of [st0] and depths between
    [depth0] and [max_depth]. *)
Definition depth_keys_within (depth0 max_depth : Z) (st0 st : State) : Prop :=
  ∀ d, is_Some (depth_data st !! d) →
    is_Some (depth_data st0 !! d) ∨ (depth0 ≤ d ≤ max_depth)%Z.

(** What every record of [page_data] says: it is filed under its own
    URL, which is visited, relevant, entered at the depth of the record
    and listed there in the depth index. *)
Definition records_inv (st : State) : Prop :=
  ∀ u rec, page_data st !! u = Some rec →
    u ∈ visited_urls st
    ∧ pr_url rec = u
    ∧ page_relevance st !! u = Some true
    ∧ EvVisit u (pr_depth rec) ∈ trace st
    ∧ ∃ urls, depth_data st !! pr_depth rec = Some urls ∧ u ∈ urls.

(** An anchor that left the document: its [href] cannot be read. *)
Definition detached_anchor : Anchor :=
  {| a_href := Raise "Element is not attached to the DOM";
     a_text := Ok EmptyString; a_parent := Ok None |}.

(** The state after [crawl_page] at the home page of the small site with
    depth bound 2. *)
Definition demo_walk : State :=
  (crawl_page_run (Demo.world true true) Demo.home Demo.home
     "pricing information" 0 2 init).2.

(** * Properties *)

(** ** The trace only grows *)

Lemma emits_nil st : emits [] st = st.
Proof. destruct st; unfold emits; simpl. by rewrite app_nil_r. Qed.

Lemma emit_emits e evs st : emit e (emits evs st) = emits (evs ++ [e]) st.
Proof. unfold emit, emits; simpl. by rewrite app_assoc. Qed.

Lemma emits_emits evs1 evs2 st :
  emits evs2 (emits evs1 st) = emits (evs1 ++ evs2) st.
Proof. unfold emits; simpl. by rewrite app_assoc. Qed.

Lemma emit_eq e st : emit e st = emits [e] st.
Proof. reflexivity. Qed.

Ltac unfold_monad :=
  unfold bind, ret, gets, modify, lift, try_catch, log, chat in *.

Ltac norm_emits := rewrite ?emit_eq, ?emits_emits; simpl app.

(** [str.split] never returns the empty list. *)
Lemma split_go_not_nil sep cur s : PyStr.split_go sep cur s ≠ [].
Proof.
  revert cur. induction s as [|c s IH]; intros cur; simpl; [done|].
  destruct (Ascii.eqb c sep); [done|apply IH].
Qed.

Section Classification.

Context (w : World).

Lemma get_semantic_keywords_emits instruction st :
  ∃ kws x,
    get_semantic_keywords w instruction st
    = (Ok kws, emits [EvExpand instruction; EvLog x] st)
    ∧ (kws = [] ↔
         ∃ e, chat_create w (trace st ++ [EvExpand instruction]) "o1-mini"
                "You are a semantic analysis expert. Return only a comma-separated list of keywords."
                (keywords_prompt instruction) = Raise e).
Proof.
  unfold get_semantic_keywords; unfold_monad; simpl.
  destruct (chat_create w _ _ _ _) as [content|e] eqn:Hc.
  - eexists _, _. split; [by norm_emits|].
    split; [|by intros [? ?]].
    intros Hnil%fmap_nil_inv. by apply split_go_not_nil in Hnil.
  - eexists _, _. split; [by norm_emits|]. split; eauto.
Qed.

Lemma is_content_relevant_emits content instruction kws st :
  ∃ b x,
    is_content_relevant w content instruction kws st
    = (Ok b, emits [EvRelevance content; EvLog x] st).
Proof.
  unfold is_content_relevant; unfold_monad; simpl.
  destruct (chat_create w _ _ _ _); eexists _, _; by norm_emits.
Qed.

Lemma should_follow_link_emits link_text href instruction kws sur st :
  ∃ b x,
    should_follow_link w link_text href instruction kws sur st
    = (Ok b, emits [EvFollow link_text href sur; EvLog x] st).
Proof.
  unfold should_follow_link; unfold_monad; simpl.
  destruct (chat_create w _ _ _ _); eexists _, _; by norm_emits.
Qed.

End Classification.

(** ** Link analysis *)

Lemma dict_set_elem {V} (k u : string) (v b : V) d :
  (u, b) ∈ Dict.set k v d → (u = k ∧ b = v) ∨ (u, b) ∈ d.
Proof.
  induction d as [|[k' v'] d IH]; simpl.
  - intros [= -> ->]%list_elem_of_singleton. by left.
  - case_bool_decide; subst.
    + intros [Heq|Hin]%elem_of_cons; [left; by simplify_eq|].
      right. by apply elem_of_cons; right.
    + intros [Heq|Hin]%elem_of_cons.
      * right. rewrite Heq. by apply elem_of_cons; left.
      * destruct (IH Hin) as [?|?]; [by left|].
        right. by apply elem_of_cons; right.
Qed.

Section Analysis.

Context (w : World).

Lemma analyze_link_spec current_url base_url instruction link lr st r st' :
  analyze_link w current_url base_url instruction link lr st = (r, st') →
  ∃ evs,
    st' = emits evs st
    ∧ Forall (analysis_event base_url (visited_urls st)) evs
    ∧ ∀ lr', r = Ok lr' → classified_in base_url evs lr lr'.
Proof.
  unfold analyze_link; unfold_monad.
  assert (Hnil : ∀ r0, (r0, st) = (r, st') →
    (∀ lr', r0 = Ok lr' → lr' = lr) →
    ∃ evs, st' = emits evs st
      ∧ Forall (analysis_event base_url (visited_urls st)) evs
      ∧ ∀ lr', r = Ok lr' → classified_in base_url evs lr lr').
  { intros r0 [= <- <-] Hr. exists []. rewrite emits_nil.
    split; [done|]. split; [constructor|].
    intros lr' ->%Hr u b Hin. by left. }
  destruct (a_href link) as [[[|c h]|]|e]; simpl;
    try (intros Heq; apply (Hnil _ Heq); intros ? ?; by simplify_eq).
  destruct (urljoin w current_url (String c h)) as [absolute_url|e]; simpl;
    try (intros Heq; apply (Hnil _ Heq); intros ? ?; by simplify_eq).
  destruct (PyStr.startswith absolute_url base_url) eqn:Hpre; simpl;
    try (intros Heq; apply (Hnil _ Heq); intros ? ?; by simplify_eq).
  case_bool_decide as Hvis; simpl;
    try (intros Heq; apply (Hnil _ Heq); intros ? ?; by simplify_eq).
  destruct (a_text link) as [link_text|e]; simpl;
    try (intros Heq; apply (Hnil _ Heq); intros ? ?; by simplify_eq).
  destruct (a_parent link) as [parent|e]; simpl;
    try (intros Heq; apply (Hnil _ Heq); intros ? ?; by simplify_eq).
  match goal with
  | |- context [should_follow_link w ?a ?b ?c ?d ?e ?s] =>
      destruct (should_follow_link_emits w a b c d e s)
        as (b0 & x & ->)
  end.
  intros [= <- <-]. eexists. split; [reflexivity|]. split.
  - repeat constructor; done.
  - intros lr' [= <-] u b [[-> ->]|Hin]%dict_set_elem; [right|by left].
    split; [done|]. eexists _, _. apply elem_of_cons; by left.
Qed.

Lemma analyze_links_spec current_url base_url instruction links :
  ∀ lr st lr' st',
    analyze_links w current_url base_url instruction links lr st = (lr', st') →
    ∃ evs,
      st' = emits evs st
      ∧ Forall (analysis_event base_url (visited_urls st)) evs
      ∧ classified_in base_url evs lr lr'.
Proof.
  induction links as [|link rest IH]; intros lr st lr' st'; simpl.
  - intros [= <- <-]. exists []. rewrite emits_nil.
    split; [done|]. split; [constructor|]. intros u b Hin; by left.
  - destruct (analyze_link w _ _ _ link lr st) as [[lr1|e] st1] eqn:Hlink;
      apply analyze_link_spec in Hlink as (evs1 & -> & Hev1 & Hcl1).
    + intros (evs2 & -> & Hev2 & Hcl2)%IH.
      exists (evs1 ++ evs2). rewrite emits_emits. split; [done|].
      split; [apply Forall_app; by split|].
      intros u b Hin. destruct (Hcl2 u b Hin) as [Hold|(Hpre & lt & s & Hf)].
      * destruct (Hcl1 _ eq_refl u b Hold) as [?|(Hpre & lt & s & Hf)];
          [by left|right].
        split; [done|]. exists lt, s. apply elem_of_app; by left.
      * right. split; [done|]. exists lt, s. apply elem_of_app; by right.
    + intros [= <- <-]. rewrite emit_emits. eexists. split; [reflexivity|].
      split.
      * apply Forall_app; split; [done|]. by repeat constructor.
      * intros u b Hin; by left.
Qed.

Lemma analyze_page_links_spec current_url base_url instruction st r st' :
  analyze_page_links w current_url base_url instruction st = (r, st') →
  ∃ lr evs,
    r = Ok lr
    ∧ st' = emits evs st
    ∧ Forall (analysis_event base_url (visited_urls st)) evs
    ∧ classified_in base_url evs [] lr.
Proof.
  unfold analyze_page_links. destruct (pv_links (page st)) as [links|e].
  - destruct (analyze_links w _ _ _ links [] st) as [lr st1] eqn:Hl.
    intros [= <- <-].
    apply analyze_links_spec in Hl as (evs & -> & Hev & Hcl).
    by exists lr, evs.
  - intros [= <- <-]. eexists [], [_]. rewrite emit_eq.
    repeat split; [by repeat constructor|].
    intros u b Hin. by apply elem_of_nil in Hin.
Qed.

End Analysis.

(** ** One page *)

Lemma analysis_page_event base_url visited e :
  analysis_event base_url visited e → page_event base_url visited e.
Proof. by destruct e. Qed.

Lemma classified_in_mono base_url evs0 evs lr :
  classified_in base_url evs [] lr → classified_in base_url (evs0 ++ evs) [] lr.
Proof.
  intros Hcl u b Hin. destruct (Hcl u b Hin) as [?|(? & lt & s & ?)]; [by left|].
  right. split; [done|]. exists lt, s. apply elem_of_app; by right.
Qed.

Lemma analysis_no_expand base_url visited evs i :
  Forall (analysis_event base_url visited) evs → EvExpand i ∉ evs.
Proof.
  intros Hall Hin. rewrite Forall_forall in Hall. by apply Hall in Hin.
Qed.

Ltac not_in_list H :=
  repeat (apply elem_of_cons in H as [H|H]; [discriminate H|]);
  by apply elem_of_nil in H.

Section Page.

Context (w : World).

Lemma visit_page_spec current_url base_url instruction depth max_depth
    st r st' :
  visit_page w current_url base_url instruction depth max_depth st = (r, st') →
  ∃ evs, visit_summary current_url base_url depth max_depth st r st' evs.
Proof.
  unfold visit_page, load_page, goto, depth_append; unfold_monad. intros H.
  destruct (keywords st) as [|kw kws] eqn:Hkws;
    [destruct (get_semantic_keywords_emits w instruction st)
       as (kws' & x & Hg & _); rewrite Hg in H|];
    simpl in H.
  all: destruct (page_goto w _ _) as [pv|e]; simpl in H.
  all: try destruct (pv_idle pv) as [[]|e]; simpl in H.
  all: try destruct (pv_body pv) as [content|e]; simpl in H.
  all: try match type of H with
       | context [is_content_relevant w ?c ?i ?k ?s] =>
           destruct (is_content_relevant_emits w c i k s)
             as ([] & y & Hr); rewrite Hr in H; simpl in H
       end.
  all: try destruct (pv_title pv) as [title|e]; simpl in H.
  all: try match type of H with
       | context [depth_data ?s !! ?d] =>
           destruct (depth_data s !! d) as [urls|] eqn:Hd; simpl in H
       end.
  all: try (case_bool_decide as Hlt; simpl in H).
  all: try match type of H with
       | analyze_page_links _ _ _ _ _ = _ =>
           apply analyze_page_links_spec in H
             as (lr & evs & -> & -> & Hev & Hcl); simpl in Hev
       end.
  all: try (injection H as <- <-).
  all: eexists; constructor; simpl.
  all: try reflexivity.
  all: try (rewrite <- ?app_assoc; simpl; reflexivity).
  all: try (repeat first
         [ assumption
         | eapply Forall_impl; [eassumption|apply analysis_page_event]
         | apply Forall_app; split
         | constructor; [simpl; first [assumption|done]|]
         | constructor ]; fail).
  all: try (intros Hn; first [contradiction|split];
         [intros lt h s Hin; not_in_list Hin | intros ? ?; by simplify_eq]; fail).
  all: try (intros Hne; first [congruence|split; [reflexivity|]];
         intros i Hin;
         repeat (apply elem_of_cons in Hin as [Hin|Hin]; [discriminate Hin|]);
         first [by apply elem_of_nil in Hin
               |by eapply analysis_no_expand in Hin]; fail).
  all: try (intros lr0 Heq; simplify_eq; first
         [ by intros ? ? ?%elem_of_nil
         | by apply (classified_in_mono _ [_; _; _; _; _; _])
         | by apply (classified_in_mono _ [_; _; _; _]) ]; fail).
  all: unfold page_outcome; simpl.
  all: try (left; by eauto 10).
  all: try (right; eexists; split; [reflexivity|]; left; by eauto 10).
  all: try (right; eexists; split; [reflexivity|]; right;
            split; [done|]; eexists; split; [reflexivity|]; by eauto 10).
Qed.

End Page.

(** ** The recursion *)

Lemma crawl_page_unfold w fuel current_url base_url instruction depth max_depth st :
  crawl_page w fuel current_url base_url instruction depth max_depth st
  = if bool_decide (depth > max_depth)%Z
       || bool_decide (current_url ∈ visited_urls st)
    then Some st
    else
      match fuel with
      | O => None
      | S fuel' =>
          match visit_page w current_url base_url instruction depth max_depth
                  (enter current_url depth st) with
          | (Ok link_relevance, st') =>
              crawl_links
                (λ url, crawl_page w fuel' url base_url instruction
                          (depth + 1) max_depth)
                link_relevance st'
          | (Raise e, st') =>
              Some (emit (EvLog (LogCrawlError current_url e)) st')
          end
      end.
Proof. by destruct fuel. Qed.

Section Enter.

Context (current_url : string) (depth : Z) (st : State).

Lemma enter_visited :
  visited_urls (enter current_url depth st)
  = {[current_url]} ∪ visited_urls st.
Proof. unfold enter; simpl. by destruct (depth_data st !! depth). Qed.

Lemma enter_trace :
  trace (enter current_url depth st) = trace st ++ [EvVisit current_url depth].
Proof. unfold enter; simpl. by destruct (depth_data st !! depth). Qed.

Lemma enter_page_relevance :
  page_relevance (enter current_url depth st) = page_relevance st.
Proof. unfold enter; simpl. by destruct (depth_data st !! depth). Qed.

Lemma enter_page_data :
  page_data (enter current_url depth st) = page_data st.
Proof. unfold enter; simpl. by destruct (depth_data st !! depth). Qed.

Lemma enter_keywords :
  keywords (enter current_url depth st) = keywords st.
Proof. unfold enter; simpl. by destruct (depth_data st !! depth). Qed.

Lemma enter_files : files (enter current_url depth st) = files st.
Proof. unfold enter; simpl. by destruct (depth_data st !! depth). Qed.

Lemma enter_depth_data :
  depth_data (enter current_url depth st)
  = match depth_data st !! depth with
    | Some _ => depth_data st
    | None => <[depth := []]> (depth_data st)
    end.
Proof. unfold enter; simpl. by destruct (depth_data st !! depth). Qed.

Lemma enter_depth_lookup d :
  depth_data (enter current_url depth st) !! d
  = if decide (d = depth)
    then Some (default [] (depth_data st !! depth))
    else depth_data st !! d.
Proof.
  rewrite enter_depth_data.
  destruct (depth_data st !! depth) as [urls|] eqn:Hd; case_decide; subst;
    simplify_map_eq; done.
Qed.

End Enter.

(** An induction principle for properties of the traversal: it is enough
    to look at one page.  [Q] tells which URLs reach which depths. *)
Section Induction.

Context (w : World) (base_url instruction : string) (max_depth : Z).
Variable I : State → Prop.
Variable Q : string → Z → Prop.

Hypothesis step : ∀ url depth st r st',
  I st → Q url depth → url ∉ visited_urls st → (depth ≤ max_depth)%Z →
  visit_page w url base_url instruction depth max_depth (enter url depth st)
  = (r, st') →
  I (after_page url r st')
  ∧ ∀ lr u b, r = Ok lr → (u, b) ∈ lr → Q u (depth + 1).

Lemma crawl_links_inv rec depth :
  (∀ url st st', I st → Q url depth → rec url st = Some st' → I st') →
  ∀ lr st st',
    I st → (∀ u b, (u, b) ∈ lr → Q u depth) →
    crawl_links rec lr st = Some st' → I st'.
Proof.
  intros Hrec. induction lr as [|[u b] lr IH]; intros st st' HI HQ; simpl.
  - by intros [= <-].
  - assert (HQ' : ∀ u' b', (u', b') ∈ lr → Q u' depth).
    { intros u' b' Hin. apply (HQ u' b'). by apply elem_of_cons; right. }
    destruct (b && negb (bool_decide (u ∈ visited_urls st))); [|by apply IH].
    destruct (rec u st) as [st1|] eqn:Hr; [|done].
    apply IH; [|done]. eapply Hrec; [done| |done].
    apply (HQ u b). by apply elem_of_cons; left.
Qed.

Lemma crawl_page_inv fuel :
  ∀ url depth st st',
    I st → Q url depth →
    crawl_page w fuel url base_url instruction depth max_depth st = Some st' →
    I st'.
Proof.
  induction fuel as [|fuel IH]; intros url depth st st' HI HQ;
    rewrite crawl_page_unfold.
  - by destruct (_ || _); [intros [= <-]|].
  - destruct (_ || _) eqn:Hguard; [by intros [= <-]|].
    apply orb_false_iff in Hguard as [Hd Hv].
    apply bool_decide_eq_false in Hd, Hv.
    destruct (visit_page w _ _ _ _ _ _) as [r st1] eqn:Hvisit.
    destruct (step url depth st r st1 HI HQ Hv ltac:(lia) Hvisit)
      as [HI1 HQ1].
    destruct r as [lr|e]; simpl in HI1; [|by intros [= <-]].
    apply (crawl_links_inv _ (depth + 1)%Z); [|done|by eauto].
    intros u s s' Hs HQu. by apply IH.
Qed.

End Induction.

(** Enough fuel: the traversal returns. *)
Section Termination.

Context (w : World) (base_url instruction : string) (max_depth : Z).

Lemma crawl_links_total rec :
  (∀ url st, is_Some (rec url st)) →
  ∀ lr st, is_Some (crawl_links rec lr st).
Proof.
  intros Hrec. induction lr as [|[u b] lr IH]; intros st; simpl; [done|].
  destruct (b && _); [|done].
  destruct (Hrec u st) as [st1 ->]. done.
Qed.

Lemma crawl_page_total fuel :
  ∀ url depth st,
    crawl_fuel depth max_depth ≤ fuel →
    is_Some (crawl_page w fuel url base_url instruction depth max_depth st).
Proof.
  unfold crawl_fuel.
  induction fuel as [|fuel IH]; intros url depth st Hfuel;
    rewrite crawl_page_unfold.
  - rewrite bool_decide_eq_true_2 by lia. done.
  - destruct (_ || _) eqn:Hguard; [done|].
    apply orb_false_iff in Hguard as [Hd _].
    apply bool_decide_eq_false in Hd.
    destruct (visit_page w _ _ _ _ _ _) as [[lr|e] st1]; [|done].
    apply crawl_links_total. intros u s. apply IH. lia.
Qed.

End Termination.

(** ** One page, from entering it to the start of its loop *)

Lemma page_event_no_visit base_url visited evs u d :
  Forall (page_event base_url visited) evs → EvVisit u d ∉ evs.
Proof.
  intros Hall Hin. rewrite Forall_forall in Hall. by apply Hall in Hin.
Qed.

Lemma page_event_follow base_url visited evs link_text href sur :
  Forall (page_event base_url visited) evs →
  EvFollow link_text href sur ∈ evs →
  PyStr.startswith href base_url = true ∧ href ∉ visited.
Proof.
  intros Hall Hin. rewrite Forall_forall in Hall. by apply Hall in Hin.
Qed.

Section PageStep.

Context (w : World).

Lemma page_step_spec current_url base_url instruction depth max_depth
    st r st' :
  visit_page w current_url base_url instruction depth max_depth
    (enter current_url depth st) = (r, st') →
  ∃ evs,
    page_step current_url base_url depth max_depth st r
      (after_page current_url r st') evs.
Proof.
  intros (evs & [Hvis Hfiles Htr Hev Hleaf Hlinks Hkw Hout])%visit_page_spec.
  rewrite enter_visited in Hvis, Hev. rewrite enter_files in Hfiles.
  rewrite enter_trace, <- app_assoc in Htr. rewrite enter_keywords in Hkw.
  assert (Hres : page_result current_url depth st r st').
  { destruct Hout as [(Hpr & Hpd & Hdd & He)|(b & Hpr & Hrest)].
    - left. by rewrite Hpr, Hpd, enter_page_relevance, enter_page_data.
    - rewrite enter_page_relevance in Hpr.
      destruct Hrest as [(Hpd & Hdd & He)|(-> & rec & Hpd & Hdd)].
      + right; left. exists b. by rewrite Hpd, enter_page_data.
      + rewrite enter_page_data in Hpd.
        destruct Hdd as [(urls & Hl & Hdd)|(Hl & _)].
        * right; right. exists rec. split; [done|]. split; [done|].
          rewrite Hdd. rewrite enter_depth_lookup in Hl.
          rewrite decide_True in Hl by done. injection Hl as <-.
          rewrite enter_depth_data.
          destruct (depth_data st !! depth); [done|].
          by rewrite insert_insert_eq.
        * rewrite enter_depth_lookup, decide_True in Hl by done. done. }
  destruct r as [lr|e]; simpl.
  - exists evs. split; try done.
  - exists (evs ++ [EvLog (LogCrawlError current_url e)]).
    split; simpl; try done.
    + rewrite Htr. by rewrite <- app_assoc.
    + apply Forall_app; split; [done|]. by repeat constructor.
    + intros Hn. destruct (Hleaf Hn) as [Hnf _]. split; [|done].
      intros lt h s [Hin|Hin]%elem_of_app; [by eapply Hnf|].
      by apply list_elem_of_singleton in Hin.
    + intros e' [= <-]. apply elem_of_app; right. by apply elem_of_cons; left.
    + intros Hne. destruct (Hkw Hne) as [Hk Hnx]. split; [done|].
      intros i [Hin|Hin]%elem_of_app; [by eapply Hnx|].
      by apply list_elem_of_singleton in Hin.
Qed.

End PageStep.

Lemma visit_urls_app evs1 evs2 :
  visit_urls (evs1 ++ evs2) = visit_urls evs1 ++ visit_urls evs2.
Proof. apply omap_app. Qed.

Lemma elem_of_visit_urls u evs :
  u ∈ visit_urls evs ↔ ∃ d, EvVisit u d ∈ evs.
Proof.
  unfold visit_urls. rewrite list_elem_of_omap. split.
  - intros ([] & Hin & Heq); simplify_eq. by eexists.
  - intros [d Hin]. by exists (EvVisit u d).
Qed.

Lemma visit_urls_page_events base_url visited evs :
  Forall (page_event base_url visited) evs → visit_urls evs = [].
Proof.
  induction 1 as [|e evs He _ IH]; [done|].
  by destruct e.
Qed.

Section Runs.

Context (w : World) (base_url instruction : string) (max_depth : Z).

Lemma run_inv_step url0 depth0 st0 url depth st r st' :
  run_inv url0 depth0 max_depth st0 st →
  (url = url0 ∧ depth = depth0) ∨ (depth0 < depth)%Z →
  url ∉ visited_urls st → (depth ≤ max_depth)%Z →
  visit_page w url base_url instruction depth max_depth (enter url depth st)
  = (r, st') →
  run_inv url0 depth0 max_depth st0 (after_page url r st')
  ∧ ∀ lr u b, r = Ok lr → (u, b) ∈ lr →
      (u = url0 ∧ depth + 1 = depth0)%Z ∨ (depth0 < depth + 1)%Z.
Proof.
  intros (evs & Htr & Hnd & Hfresh & Hvis & Hdep) HQ Hnv Hle
    (evs1 & [Hv1 _ Ht1 He1 _ _ _ _ _])%page_step_spec.
  split; [|intros; right; lia].
  exists (evs ++ EvVisit url depth :: evs1).
  assert (Hvu : visit_urls (evs ++ EvVisit url depth :: evs1)
                = visit_urls evs ++ [url]).
  { rewrite visit_urls_app. f_equal. unfold visit_urls at 1; simpl.
    fold (visit_urls evs1).
    by erewrite visit_urls_page_events. }
  rewrite Hvu. split_and!.
  - rewrite Ht1, Htr. by rewrite <- app_assoc.
  - apply NoDup_app. split; [done|]. split; [|apply NoDup_singleton].
    intros u Hu ->%list_elem_of_singleton. apply Hnv. rewrite Hvis.
    apply elem_of_union; right. by apply elem_of_list_to_set.
  - intros u [Hu| ->%list_elem_of_singleton]%elem_of_app; [by apply Hfresh|].
    intros Hin. apply Hnv. rewrite Hvis. by apply elem_of_union; left.
  - rewrite Hv1, Hvis, list_to_set_app_L. simpl. set_solver.
  - intros u d [Hin|Hin]%elem_of_app; [by apply Hdep|].
    apply elem_of_cons in Hin as [[= -> ->]|Hin].
    + destruct HQ as [?|?]; [by left|right; lia].
    + by eapply page_event_no_visit in Hin.
Qed.

(** C2 *)
Lemma crawl_page_run_inv fuel url depth st st' :
  crawl_page w fuel url base_url instruction depth max_depth st = Some st' →
  run_inv url depth max_depth st st'.
Proof.
  intros Hrun.
  eapply (crawl_page_inv w base_url instruction max_depth
            (run_inv url depth max_depth st)
            (λ u d, (u = url ∧ d = depth) ∨ (depth < d)%Z));
    [|  |by left|exact Hrun].
  - intros. by eapply run_inv_step.
  - exists []. rewrite app_nil_r. split_and!; try done.
    + constructor.
    + intros u Hin. by apply elem_of_nil in Hin.
    + simpl. set_solver.
    + intros u d Hin. by apply elem_of_nil in Hin.
Qed.

End Runs.

(** ** Domain confinement *)

Section Confinement.

Context (w : World) (base_url instruction : string) (max_depth : Z).

Lemma confined_step url0 st0 url depth st r st' :
  confined url0 base_url st0 st →
  url = url0 ∨ PyStr.startswith url base_url = true →
  visit_page w url base_url instruction depth max_depth (enter url depth st)
  = (r, st') →
  confined url0 base_url st0 (after_page url r st')
  ∧ ∀ lr u b, r = Ok lr → (u, b) ∈ lr →
      u = url0 ∨ PyStr.startswith u base_url = true.
Proof.
  intros (evs & Htr & Hfol & Hvis) HQ
    (evs1 & [Hv1 _ Ht1 He1 _ Hl1 _ _ _])%page_step_spec.
  split.
  - exists (evs ++ EvVisit url depth :: evs1). split_and!.
    + rewrite Ht1, Htr. by rewrite <- app_assoc.
    + intros lt h s [Hin|Hin]%elem_of_app; [by eapply Hfol|].
      apply elem_of_cons in Hin as [?|Hin]; [done|].
      by eapply page_event_follow in Hin as [? _].
    + intros u. rewrite Hv1.
      intros [->%elem_of_singleton|Hin]%elem_of_union; [|by apply Hvis].
      destruct HQ; auto.
  - intros lr u b -> Hin. right.
    destruct (Hl1 lr eq_refl u b Hin) as [Hnil|[? _]]; [|done].
    by apply elem_of_nil in Hnil.
Qed.

Lemma crawl_page_confined fuel url depth st st' :
  crawl_page w fuel url base_url instruction depth max_depth st = Some st' →
  confined url base_url st st'.
Proof.
  intros Hrun.
  eapply (crawl_page_inv w base_url instruction max_depth
            (confined url base_url st)
            (λ u _, u = url ∨ PyStr.startswith u base_url = true));
    [| |by left|exact Hrun].
  - intros. by eapply confined_step.
  - exists []. rewrite app_nil_r. split_and!; [done| |by auto].
    intros lt h s Hin. by apply elem_of_nil in Hin.
Qed.

End Confinement.

(** ** A page at the depth bound *)

Section Leaf.

Context (w : World) (base_url instruction : string).

Lemma crawl_page_leaf fuel url depth st :
  url ∉ visited_urls st →
  ∃ st' evs,
    crawl_page w (S fuel) url base_url instruction depth depth st = Some st'
    ∧ visited_urls st' = {[url]} ∪ visited_urls st
    ∧ trace st' = trace st ++ EvVisit url depth :: evs
    ∧ (∀ u d, EvVisit u d ∉ evs)
    ∧ (∀ link_text href sur, EvFollow link_text href sur ∉ evs).
Proof.
  intros Hnv. rewrite crawl_page_unfold.
  rewrite bool_decide_eq_false_2 by lia.
  rewrite bool_decide_eq_false_2 by done. simpl.
  destruct (visit_page w _ _ _ _ _ _) as [r st1] eqn:Hvisit.
  apply page_step_spec in Hvisit as (evs & [Hv1 _ Ht1 He1 Hleaf _ _ _ _]).
  destruct (Hleaf ltac:(lia)) as [Hnf Hnil].
  exists (after_page url r st1), evs. split_and!; try done.
  - destruct r as [lr|e]; [|done]. by rewrite (Hnil lr eq_refl).
  - intros u d. by eapply page_event_no_visit.
Qed.

End Leaf.

(** ** The relevance map, the visited set and the depth index *)

Section Invariants.

Context (w : World) (base_url instruction : string) (max_depth : Z).

Lemma relevance_inv_step url depth st r st' :
  relevance_inv st →
  visit_page w url base_url instruction depth max_depth (enter url depth st)
  = (r, st') →
  relevance_inv (after_page url r st').
Proof.
  intros [Hdom Herr] (evs & [Hv1 _ Ht1 _ _ _ He1 _ Hres])%page_step_spec.
  assert (Hold : ∀ u, u ≠ url →
            page_relevance (after_page url r st') !! u
            = page_relevance st !! u).
  { intros u Hne.
    destruct Hres as [(-> & _)|[(b & -> & _)|(rec & -> & _)]];
      by rewrite ?lookup_insert_ne. }
  split.
  - intros u Hu. rewrite Hv1. destruct (decide (u = url)) as [->|Hne].
    + by apply elem_of_union; left; apply elem_of_singleton.
    + apply elem_of_union; right. apply Hdom. by rewrite <- Hold.
  - intros u Hu Hnone. rewrite Ht1.
    destruct (decide (u = url)) as [->|Hne].
    + destruct Hres as [(_ & _ & _ & e & ->)|[(b & Hpr & _)|(rec & Hpr & _)]].
      * exists e. apply elem_of_app; right. apply elem_of_cons; right.
        by apply He1.
      * by rewrite Hpr, lookup_insert_eq in Hnone.
      * by rewrite Hpr, lookup_insert_eq in Hnone.
    + rewrite Hv1 in Hu. apply elem_of_union in Hu as [Hu|Hu];
        [by apply elem_of_singleton in Hu|].
      rewrite Hold in Hnone by done.
      destruct (Herr u Hu Hnone) as [e He]. exists e.
      apply elem_of_app; by left.
Qed.

Lemma crawl_page_relevance_inv fuel url depth st st' :
  relevance_inv st →
  crawl_page w fuel url base_url instruction depth max_depth st = Some st' →
  relevance_inv st'.
Proof.
  intros Hinv Hrun.
  eapply (crawl_page_inv w base_url instruction max_depth relevance_inv
            (λ _ _, True)); [|exact Hinv|done|exact Hrun].
  intros. split; [by eapply relevance_inv_step|done].
Qed.

Lemma depth_index_inv_step url depth st r st' :
  depth_index_inv st → url ∉ visited_urls st →
  visit_page w url base_url instruction depth max_depth (enter url depth st)
  = (r, st') →
  depth_index_inv (after_page url r st').
Proof.
  intros (Hnd & Hmem & Hdisj & Hkey) Hfresh
    (evs & [Hv1 _ Ht1 Hev1 _ _ _ _ Hres])%page_step_spec.
  set (st2 := after_page url r st') in *.
  assert (Hnotin : ∀ d urls, depth_data st !! d = Some urls → url ∉ urls).
  { intros d urls Hd Hin. by destruct (Hmem d urls url Hd Hin). }
  (* what the listed URLs keep *)
  assert (Hkeep : ∀ d urls u,
            depth_data st !! d = Some urls → u ∈ urls →
            u ∈ visited_urls st2
            ∧ is_Some (page_data st2 !! u)
            ∧ page_relevance st2 !! u = Some true
            ∧ EvVisit u d ∈ trace st2).
  { intros d urls u Hd Hin.
    destruct (Hmem d urls u Hd Hin) as (Hvis & Hpd & Hpr & Htr).
    assert (u ≠ url) by (intros ->; done).
    rewrite Hv1, Ht1. split_and!.
    - by apply elem_of_union; right.
    - destruct Hres as [(_ & -> & _)|[(b & _ & -> & _)|(rec & _ & -> & _)]];
        by rewrite ?lookup_insert_ne.
    - destruct Hres as [(-> & _)|[(b & -> & _)|(rec & -> & _)]];
        by rewrite ?lookup_insert_ne.
    - apply elem_of_app; by left. }
  (* the lists after the page *)
  assert (Hlists : ∀ d urls,
            depth_data st2 !! d = Some urls →
            depth_data st !! d = Some urls
            ∨ (d = depth ∧ urls = [] ∧ depth_data st !! depth = None)
            ∨ (d = depth
               ∧ urls = default [] (depth_data st !! depth) ++ [url]
               ∧ is_Some (page_data st2 !! url)
               ∧ page_relevance st2 !! url = Some true)).
  { intros d urls Hd.
    destruct Hres as [(_ & _ & Hdd & _)|[(b & _ & _ & Hdd & _)
                                        |(rec & Hpr & Hpd & Hdd)]];
      simpl in Hd; rewrite Hdd in Hd.
    1,2: rewrite enter_depth_lookup in Hd; case_decide; subst; [|by left];
         destruct (depth_data st !! depth) eqn:Hold; simplify_eq/=;
         [by left|right; left; done].
    rewrite lookup_insert in Hd. case_decide; subst; [|by left].
    right; right. simplify_eq. split_and!; [done|done| |].
    - by rewrite Hpd, lookup_insert_eq.
    - by rewrite Hpr, lookup_insert_eq. }
  assert (Hdefault : ∀ u, u ∈ default [] (depth_data st !! depth) →
            ∃ urls, depth_data st !! depth = Some urls ∧ u ∈ urls).
  { intros u Hu. destruct (depth_data st !! depth) as [urls|]; simpl in Hu;
      [by exists urls|by apply elem_of_nil in Hu]. }
  assert (Hvisit : EvVisit url depth ∈ trace st2).
  { rewrite Ht1. apply elem_of_app; right. by apply elem_of_cons; left. }
  split_and!.
  - intros d urls Hd.
    destruct (Hlists d urls Hd) as [Hold|[(-> & -> & _)|(-> & -> & _)]].
    + by eapply Hnd.
    + constructor.
    + apply NoDup_app. split_and!.
      * destruct (depth_data st !! depth) as [l|] eqn:Hl; simpl;
          [by eapply Hnd|constructor].
      * intros u (l & Hl & Hu)%Hdefault ->%list_elem_of_singleton.
        by eapply Hnotin.
      * apply NoDup_singleton.
  - intros d urls u Hd Hin.
    destruct (Hlists d urls Hd) as [Hold|[(-> & -> & _)|(-> & -> & Hpd & Hpr)]].
    + by eapply Hkeep.
    + by apply elem_of_nil in Hin.
    + apply elem_of_app in Hin as [(l & Hl & Hu)%Hdefault
                                  | ->%list_elem_of_singleton].
      * by eapply Hkeep.
      * split_and!; try done. rewrite Hv1.
        by apply elem_of_union; left; apply elem_of_singleton.
  - intros d1 d2 urls1 urls2 u Hd1 Hd2 Hin1 Hin2.
    assert (Hsrc : ∀ d urls, depth_data st2 !! d = Some urls → u ∈ urls →
              (∃ l, depth_data st !! d = Some l ∧ u ∈ l)
              ∨ (d = depth ∧ u = url)).
    { intros d urls Hd Hin.
      destruct (Hlists d urls Hd) as [Hold|[(-> & -> & _)|(-> & -> & _)]].
      - left. by exists urls.
      - by apply elem_of_nil in Hin.
      - apply elem_of_app in Hin as [(l & Hl & Hu)%Hdefault
                                    | ->%list_elem_of_singleton];
          [left; by exists l|by right]. }
    destruct (Hsrc d1 urls1 Hd1 Hin1) as [(l1 & Hl1 & Hu1)|[-> ->]],
             (Hsrc d2 urls2 Hd2 Hin2) as [(l2 & Hl2 & Hu2)|[-> Heq]];
      try done.
    + by eapply Hdisj.
    + subst. by destruct (Hnotin _ _ Hl1).
    + by destruct (Hnotin _ _ Hl2).
  - intros u d. rewrite Ht1.
    intros [Hin|Hin]%elem_of_app.
    + destruct (Hkey u d Hin) as [l Hl].
      destruct Hres as [(_ & _ & Hdd & _)|[(b & _ & _ & Hdd & _)
                                          |(rec & _ & _ & Hdd)]];
        simpl; rewrite Hdd.
      1,2: rewrite enter_depth_lookup; by case_decide.
      rewrite lookup_insert. by case_decide.
    + apply elem_of_cons in Hin as [[= -> ->]|Hin];
        [|by eapply page_event_no_visit in Hin].
      destruct Hres as [(_ & _ & Hdd & _)|[(b & _ & _ & Hdd & _)
                                          |(rec & _ & _ & Hdd)]];
        simpl; rewrite Hdd.
      1,2: by rewrite enter_depth_lookup, decide_True.
      by rewrite lookup_insert_eq.
Qed.

Lemma crawl_page_depth_index_inv fuel url depth st st' :
  depth_index_inv st →
  crawl_page w fuel url base_url instruction depth max_depth st = Some st' →
  depth_index_inv st'.
Proof.
  intros Hinv Hrun.
  eapply (crawl_page_inv w base_url instruction max_depth depth_index_inv
            (λ _ _, True)); [|exact Hinv|done|exact Hrun].
  intros. split; [by eapply depth_index_inv_step|done].
Qed.

End Invariants.

Lemma relevance_inv_init : relevance_inv init.
Proof. split; [by intros u [? ?]|]. intros u Hu. by apply elem_of_empty in Hu. Qed.

Lemma depth_index_inv_init : depth_index_inv init.
Proof.
  split_and!; try done. intros u d Hin. by apply elem_of_nil in Hin.
Qed.

(** ** The entry point *)

Section Entry.

Context (w : World).

Lemma crawl_page_run_some url base_url instruction depth max_depth st :
  ∃ st',
    crawl_page w (crawl_fuel depth max_depth) url base_url instruction
      depth max_depth st = Some st'
    ∧ crawl_page_run w url base_url instruction depth max_depth st
      = (Ok tt, st').
Proof.
  destruct (crawl_page_total w base_url instruction max_depth
              (crawl_fuel depth max_depth) url depth st) as [st' Hrun];
    [done|].
  exists st'. split; [done|]. unfold crawl_page_run. by rewrite Hrun.
Qed.

(** What [crawl] does once the browser is there: the traversal, then
    the attempt to write the report, then closing the browser. *)
Lemma crawl_launched base_url instruction max_depth st :
  launch_browser w = Ok tt →
  let base := normalize_base_url base_url in
  ∃ st1 evs,
    crawl_page w (crawl_fuel 0 max_depth) base base instruction 0 max_depth
      (set_page blank_page st) = Some st1
    ∧ same_results st1 (crawl w base_url instruction max_depth st).2
    ∧ trace (crawl w base_url instruction max_depth st).2 = trace st1 ++ evs
    ∧ Forall is_log evs
    ∧ (crawl w base_url instruction max_depth st).1
      = match close_browser w with
        | Ok _ => Ok PyNone
        | Raise e => Raise e
        end
    ∧ (∀ e, write_outcome w (trace st1) (report_name w (trace st1))
            = Raise e →
            EvLog (LogCrawlFailed e) ∈ evs).
Proof.
  intros Hlaunch base. unfold crawl. rewrite Hlaunch. fold base.
  destruct (crawl_page_run_some base base instruction 0 max_depth
              (set_page blank_page st)) as (st1 & Hsome & Hrun).
  exists st1. unfold try_catch, bind, save_results, log, modify.
  rewrite Hrun. unfold write_outcome.
  destruct (open_write w (trace st1) _) as [[]|e] eqn:Ho; simpl;
    [destruct (write_json w (trace st1) _) as [[]|e] eqn:Hw; simpl|].
  - eexists [_; _].
    destruct (close_browser w) as [[]|e']; simpl;
      (split_and!; [done|done|by rewrite <- app_assoc
                   |by repeat constructor|done|done]).
  - eexists [_].
    destruct (close_browser w) as [[]|e']; simpl;
      (split_and!; [done|done|done|by repeat constructor|done|]);
      intros e0 [= <-]; by apply elem_of_cons; left.
  - eexists [_].
    destruct (close_browser w) as [[]|e']; simpl;
      (split_and!; [done|done|done|by repeat constructor|done|]);
      intros e0 [= <-]; by apply elem_of_cons; left.
Qed.

Lemma crawl_not_launched base_url instruction max_depth st e :
  launch_browser w = Raise e →
  crawl w base_url instruction max_depth st = (Raise e, st).
Proof. intros Hlaunch. unfold crawl. by rewrite Hlaunch. Qed.

(** A predicate that looks at the results and at what the trace
    contains holds after [crawl] if the traversal keeps it. *)
Lemma crawl_inv (I : State → Prop) base_url instruction max_depth st :
  (∀ st1 st2 evs,
     I st1 → same_results st1 st2 → trace st2 = trace st1 ++ evs →
     Forall is_log evs → I st2) →
  (∀ fuel url base depth st1 st2,
     I st1 →
     crawl_page w fuel url base instruction depth max_depth st1 = Some st2 →
     I st2) →
  I st → I (crawl w base_url instruction max_depth st).2.
Proof.
  intros Hmono Hpres HI.
  destruct (launch_browser w) as [[]|e] eqn:Hlaunch.
  - destruct (crawl_launched base_url instruction max_depth st Hlaunch)
      as (st1 & evs & Hrun & Hsame & Htr & Hlog & _).
    eapply Hmono; [|exact Hsame|exact Htr|exact Hlog].
    eapply Hpres; [|exact Hrun].
    eapply (Hmono st _ []); [done|by repeat split| |constructor].
    simpl. by rewrite app_nil_r.
  - by rewrite (crawl_not_launched _ _ _ _ e).
Qed.

End Entry.

Lemma relevance_inv_mono st1 st2 evs :
  relevance_inv st1 → same_results st1 st2 →
  trace st2 = trace st1 ++ evs → Forall is_log evs → relevance_inv st2.
Proof.
  intros [Hdom Herr] (Hv & Hpr & _) Htr _. split.
  - intros u. rewrite Hv, Hpr. apply Hdom.
  - intros u. rewrite Hv, Hpr, Htr. intros Hu Hnone.
    destruct (Herr u Hu Hnone) as [e He]. exists e. apply elem_of_app; by left.
Qed.

Lemma depth_index_inv_mono st1 st2 evs :
  depth_index_inv st1 → same_results st1 st2 →
  trace st2 = trace st1 ++ evs → Forall is_log evs → depth_index_inv st2.
Proof.
  intros (Hnd & Hmem & Hdisj & Hkey) (Hv & Hpr & Hpd & Hdd & _) Htr Hlog.
  split_and!.
  - intros d urls. rewrite Hdd. apply Hnd.
  - intros d urls u. rewrite Hdd, Hv, Hpd, Hpr, Htr. intros Hd Hin.
    destruct (Hmem d urls u Hd Hin) as (? & ? & ? & ?).
    split_and!; try done. apply elem_of_app; by left.
  - intros d1 d2 urls1 urls2 u. rewrite Hdd. apply Hdisj.
  - intros u d. rewrite Hdd, Htr. intros [Hin|Hin]%elem_of_app;
      [by eapply Hkey|].
    rewrite Forall_forall in Hlog. by apply Hlog in Hin.
Qed.

(** ** The statements of the specification *)

(** C1, as the code has it.  After [crawl_page] returns, and after
    [crawl], every URL with an entry in the relevance map is in the
    visited set, and a visited URL without an entry is one whose
    processing raised before its verdict was recorded (the error record
    of line 255 is in the trace).  The two sets are equal when no page
    raised. *)
Theorem relevance_domain_within_visited w instruction max_depth st st' :
  relevance_inv st →
  (∃ fuel url base_url depth,
     crawl_page w fuel url base_url instruction depth max_depth st = Some st')
  ∨ (∃ base_url, st' = (crawl w base_url instruction max_depth st).2) →
  dom (page_relevance st') ⊆ visited_urls st'
  ∧ (∀ u, u ∈ visited_urls st' → u ∉ dom (page_relevance st') →
       ∃ e, EvLog (LogCrawlError u e) ∈ trace st')
  ∧ ((∀ u e, EvLog (LogCrawlError u e) ∉ trace st') →
     dom (page_relevance st') = visited_urls st').
Proof.
  intros Hinv Hrun.
  assert (Hinv' : relevance_inv st').
  { destruct Hrun as [(fuel & url & base_url & depth & Hrun)|[base_url ->]].
    - by eapply crawl_page_relevance_inv.
    - apply crawl_inv; [apply relevance_inv_mono| |done].
      intros. by eapply crawl_page_relevance_inv. }
  destruct Hinv' as [Hdom Herr].
  assert (Hsub : dom (page_relevance st') ⊆ visited_urls st').
  { intros u Hu%elem_of_dom. by apply Hdom. }
  assert (Hmiss : ∀ u, u ∈ visited_urls st' → u ∉ dom (page_relevance st') →
            ∃ e, EvLog (LogCrawlError u e) ∈ trace st').
  { intros u Hu Hnd. apply Herr; [done|]. by apply not_elem_of_dom. }
  split_and!; [done|done|].
  intros Hnoerr. apply set_eq. intros u. split; [apply Hsub|].
  intros Hu. destruct (decide (u ∈ dom (page_relevance st'))) as [|Hn]; [done|].
  destruct (Hmiss u Hu Hn) as [e He]. by destruct (Hnoerr u e).
Qed.


Lemma startswith_refl s : PyStr.startswith s s = true.
Proof. unfold PyStr.startswith. induction s as [|c s IH]; simpl; [done|].
  by destruct (ascii_dec c c). Qed.

Section Descent.

Context (w : World) (base_url instruction : string) (max_depth : Z).

(** The URLs entered at [depth] by the loop over [lr] are keys of [lr]. *)
Lemma crawl_links_visits fuel depth :
  ∀ lr st st',
    crawl_links
      (λ u, crawl_page w fuel u base_url instruction depth max_depth)
      lr st = Some st' →
    ∃ evs,
      trace st' = trace st ++ evs
      ∧ ∀ u, EvVisit u depth ∈ evs → ∃ b, (u, b) ∈ lr.
Proof.
  induction lr as [|[u b] lr IH]; intros st st'; simpl.
  - intros [= <-]. exists []. rewrite app_nil_r. split; [done|].
    intros u Hin. by apply elem_of_nil in Hin.
  - assert (Hrest : ∀ s, crawl_links
              (λ u, crawl_page w fuel u base_url instruction depth max_depth)
              lr s = Some st' →
            ∃ evs, trace st' = trace s ++ evs
              ∧ ∀ u', EvVisit u' depth ∈ evs → ∃ b', (u', b') ∈ (u, b) :: lr).
    { intros s (evs & Htr & Hk)%IH. exists evs. split; [done|].
      intros u' (b' & Hin)%Hk. exists b'. by apply elem_of_cons; right. }
    destruct (b && negb (bool_decide (u ∈ visited_urls st))); [|apply Hrest].
    destruct (crawl_page w fuel u _ _ _ _ st) as [st1|] eqn:Hrun; [|done].
    intros (evs2 & Htr2 & Hk2)%Hrest.
    apply crawl_page_run_inv in Hrun as (evs1 & Htr1 & _ & _ & _ & Hd1).
    exists (evs1 ++ evs2). split; [by rewrite Htr2, Htr1, <- app_assoc|].
    intros u' [Hin|Hin]%elem_of_app; [|by apply Hk2].
    destruct (Hd1 u' depth Hin) as [[-> _]|?]; [|lia].
    exists b. by apply elem_of_cons; left.
Qed.

(** Once there are keywords, the traversal asks for none and keeps
    them. *)
Lemma crawl_page_keywords_cached fuel url depth st st' :
  keywords st ≠ [] →
  crawl_page w fuel url base_url instruction depth max_depth st = Some st' →
  keywords st' = keywords st
  ∧ ∃ evs, trace st' = trace st ++ evs ∧ ∀ i, EvExpand i ∉ evs.
Proof.
  intros Hne Hrun.
  eapply (crawl_page_inv w base_url instruction max_depth
            (λ s, keywords s = keywords st
                  ∧ ∃ evs, trace s = trace st ++ evs ∧ ∀ i, EvExpand i ∉ evs)
            (λ _ _, True)); [| |done|exact Hrun].
  - intros u d s r s' [Hk (evs & Htr & Hnx)] _ _ _
      (evs1 & [_ _ Ht1 _ _ _ _ Hkw1 _])%page_step_spec.
    split; [|done]. rewrite <- Hk in Hne.
    destruct (Hkw1 Hne) as [Hk1 Hnx1]. split; [congruence|].
    exists (evs ++ EvVisit u d :: evs1).
    split; [by rewrite Ht1, Htr, <- app_assoc|].
    intros i [Hin|Hin]%elem_of_app; [by eapply Hnx|].
    apply elem_of_cons in Hin as [?|Hin]; [done|by eapply Hnx1].
  - split; [done|]. exists []. rewrite app_nil_r. split; [done|].
    intros i Hin. by apply elem_of_nil in Hin.
Qed.

End Descent.

Section Shape.

Context (w : World) (base_url instruction : string) (max_depth : Z).

(** A call that passes the guard: the page, then the loop over its
    links. *)
Lemma crawl_page_shape fuel url depth st st' :
  url ∉ visited_urls st → (depth ≤ max_depth)%Z →
  crawl_page w fuel url base_url instruction depth max_depth st = Some st' →
  ∃ fuel' lr evs_page st1,
    trace st1 = trace st ++ EvVisit url depth :: evs_page
    ∧ (∀ u d, EvVisit u d ∉ evs_page)
    ∧ (∀ u b, (u, b) ∈ lr →
         ∃ link_text sur, EvFollow link_text u sur ∈ evs_page)
    ∧ (¬ (depth < max_depth)%Z → lr = [])
    ∧ crawl_links
        (λ u, crawl_page w fuel' u base_url instruction (depth + 1) max_depth)
        lr st1 = Some st'.
Proof.
  intros Hfresh Hle. rewrite crawl_page_unfold.
  rewrite bool_decide_eq_false_2 by lia.
  rewrite bool_decide_eq_false_2 by done. simpl.
  destruct fuel as [|fuel]; [done|].
  destruct (visit_page w _ _ _ _ _ _) as [r st1] eqn:Hvisit.
  apply page_step_spec in Hvisit as (evs & [_ _ Ht1 He1 Hleaf Hl1 _ _ _]).
  assert (Hnv : ∀ u d, EvVisit u d ∉ evs)
    by (intros u d; by eapply page_event_no_visit).
  destruct r as [lr|e]; simpl in *.
  - intros Hloop. exists fuel, lr, evs, st1. split_and!; try done.
    + intros u b Hin.
      destruct (Hl1 lr eq_refl u b Hin) as [Hnil|[_ ?]]; [|done].
      by apply elem_of_nil in Hnil.
    + intros Hn. destruct (Hleaf Hn) as [_ Hnil]. by apply Hnil.
  - intros [= <-].
    exists fuel, [], evs, (emit (EvLog (LogCrawlError url e)) st1).
    split_and!; try done.
    intros u b Hin. by apply elem_of_nil in Hin.
Qed.

(** What a call that passes the guard writes: the visit of its URL, then
    visits at greater depths only. *)
Lemma crawl_page_segment fuel url depth st st' :
  url ∉ visited_urls st → (depth ≤ max_depth)%Z →
  crawl_page w fuel url base_url instruction depth max_depth st = Some st' →
  ∃ below,
    trace st' = trace st ++ EvVisit url depth :: below
    ∧ ∀ u' d', EvVisit u' d' ∈ below → (depth < d')%Z.
Proof.
  intros Hfresh Hle Hrun.
  destruct (crawl_page_shape _ _ _ _ _ Hfresh Hle Hrun)
    as (fuel' & lr & evs_page & st1 & Ht1 & _ & _ & _ & Hloop).
  apply crawl_links_visits in Hloop as (evs_rec & Htr & _).
  apply crawl_page_run_inv in Hrun as (evs & Hevs & Hnd & _ & _ & Hdep).
  rewrite Ht1, <- app_assoc in Htr. rewrite Hevs in Htr.
  apply app_inv_head in Htr. simpl in Htr. subst evs.
  exists (evs_page ++ evs_rec). split; [done|].
  intros u' d' Hin.
  destruct (Hdep u' d') as [[-> ->]|?]; [by apply elem_of_cons; right| |lia].
  unfold visit_urls in Hnd; simpl in Hnd. fold (visit_urls (evs_page ++ evs_rec)) in Hnd.
  apply NoDup_cons in Hnd as [Hnotin _]. destruct Hnotin.
  apply elem_of_visit_urls. by exists depth.
Qed.

Lemma crawl_links_descends fuel depth :
  (depth ≤ max_depth)%Z →
  ∀ lr st st',
    crawl_links
      (λ u, crawl_page w fuel u base_url instruction depth max_depth)
      lr st = Some st' →
    descends w fuel base_url instruction depth max_depth lr st st'.
Proof.
  intros Hle. induction lr as [|[u b] lr IH]; intros st st'; simpl.
  - intros [= <-]. constructor.
  - destruct (b && negb (bool_decide (u ∈ visited_urls st))) eqn:Hfollow.
    + apply andb_true_iff in Hfollow as [-> Hnv].
      apply negb_true_iff, bool_decide_eq_false in Hnv.
      destruct (crawl_page w fuel u _ _ _ _ st) as [st1|] eqn:Hrun; [|done].
      intros Hrest%IH.
      destruct (crawl_page_segment _ _ _ _ _ Hnv Hle Hrun)
        as (below & Htr1 & Hbelow).
      by eapply descends_follow.
    + intros Hrest%IH. apply descends_skip; [|done].
      apply andb_false_iff in Hfollow as [->|Hv]; [by left|right].
      by apply negb_false_iff, bool_decide_eq_true in Hv.
Qed.

(** The part of a page before its links are analysed enters no URL and
    classifies no link. *)
Lemma load_page_spec url depth st r st_a :
  load_page w url instruction depth (enter url depth st) = (r, st_a) →
  ∃ evs,
    trace st_a = trace st ++ EvVisit url depth :: evs
    ∧ visited_urls st_a = {[url]} ∪ visited_urls st
    ∧ (∀ u d, EvVisit u d ∉ evs)
    ∧ (∀ link_text u sur, EvFollow link_text u sur ∉ evs).
Proof.
  intros Hload.
  assert (Hvisit : visit_page w url base_url instruction depth depth
                     (enter url depth st)
                   = (match r with Ok _ => Ok [] | Raise e => Raise e end,
                      st_a)).
  { unfold visit_page, bind. rewrite Hload. destruct r as [[]|e]; [|done].
    by rewrite bool_decide_eq_false_2 by lia. }
  apply visit_page_spec in Hvisit
    as (evs & [Hvis _ Htr Hev Hleaf _ _ _]).
  rewrite enter_visited in Hvis, Hev.
  rewrite enter_trace, <- app_assoc in Htr.
  exists evs. split_and!; [done|done| |].
  - intros u d. by eapply page_event_no_visit.
  - apply Hleaf. lia.
Qed.

End Shape.

(** C4, as the code has it.  The links of a page are classified in one
    pass, before the first descent from that page.  Between entering the
    page and the end of [analyze_page_links] no URL is entered: loading
    the page classifies no link, and the analysis classifies every key of
    the dictionary [link_relevance] it returns.  The loop then takes the
    entries of that dictionary in order: an entry judged not followable,
    or visited by then, is passed over; for an entry judged followable
    and not visited [crawl_page] runs at [depth + 1], and the loop goes on
    with the next entry from the state in which that call returned, after
    the visit of the entry and everything that was entered below it. *)
Theorem links_classified_before_descent w fuel url base_url instruction
    depth max_depth st st' :
  url ∉ visited_urls st → (depth ≤ max_depth)%Z →
  crawl_page w fuel url base_url instruction depth max_depth st = Some st' →
  ∃ r st_a evs_load,
    load_page w url instruction depth (enter url depth st) = (r, st_a)
    ∧ trace st_a = trace st ++ EvVisit url depth :: evs_load
    ∧ (∀ u d, EvVisit u d ∉ evs_load)
    ∧ (∀ link_text u sur, EvFollow link_text u sur ∉ evs_load)
    ∧ match r with
      | Raise e => st' = emit (EvLog (LogCrawlError url e)) st_a
      | Ok _ =>
          if bool_decide (depth < max_depth)%Z then
            ∃ link_relevance st_l evs_links,
              analyze_page_links w url base_url instruction st_a
              = (Ok link_relevance, st_l)
              ∧ trace st_l = trace st_a ++ evs_links
              ∧ visited_urls st_l = {[url]} ∪ visited_urls st
              ∧ (∀ u d, EvVisit u d ∉ evs_links)
              ∧ (∀ u b, (u, b) ∈ link_relevance →
                   ∃ link_text sur, EvFollow link_text u sur ∈ evs_links)
              ∧ descends w (Nat.pred fuel) base_url instruction (depth + 1)
                  max_depth link_relevance st_l st'
          else st' = st_a
      end.
Proof.
  intros Hfresh Hle. rewrite crawl_page_unfold.
  rewrite bool_decide_eq_false_2 by lia.
  rewrite bool_decide_eq_false_2 by done. simpl.
  destruct fuel as [|fuel]; [done|].
  unfold visit_page, bind.
  destruct (load_page w url instruction depth (enter url depth st))
    as [r st_a] eqn:Hload.
  destruct (load_page_spec w base_url instruction url depth st r st_a Hload)
    as (evs_load & Htr & Hvis & Hnv & Hnf).
  intros Hrun. exists r, st_a, evs_load. split_and!; [done..|].
  destruct r as [[]|e]; [|by injection Hrun].
  case_bool_decide as Hlt; [|by injection Hrun].
  destruct (analyze_page_links w url base_url instruction st_a)
    as [r_l st_l] eqn:Han.
  pose proof Han as Hspec.
  apply analyze_page_links_spec in Hspec as (lr & evs & -> & -> & Hev & Hcl).
  exists lr, (emits evs st_a), evs. split_and!; [done|done|done| | |].
  - intros u d Hin. rewrite Forall_forall in Hev. by apply Hev in Hin.
  - intros u b Hin. destruct (Hcl u b Hin) as [Hnil|(_ & ?)]; [|done].
    by apply elem_of_nil in Hnil.
  - apply crawl_links_descends; [lia|exact Hrun].
Qed.

(** C5, as the code has it.  [crawl] has no [return]: it never hands a
    report to its caller, and hands back [None] when the browser was
    launched and closed.  The results of the traversal stay in the fields
    of the crawler whether or not the report could be written; a failed
    write, be it the opening of the file or the dump into it, is caught
    and logged. *)
Theorem crawl_returns_none w base_url instruction max_depth st :
  (∀ report,
     (crawl w base_url instruction max_depth st).1 ≠ Ok (PyReport report))
  ∧ (launch_browser w = Ok tt → close_browser w = Ok tt →
     (crawl w base_url instruction max_depth st).1 = Ok PyNone)
  ∧ (launch_browser w = Ok tt →
     let base := normalize_base_url base_url in
     ∃ st1,
       crawl_page w (crawl_fuel 0 max_depth) base base instruction 0
         max_depth (set_page blank_page st) = Some st1
       ∧ same_results st1 (crawl w base_url instruction max_depth st).2
       ∧ ∀ e, write_outcome w (trace st1) (report_name w (trace st1))
              = Raise e →
              EvLog (LogCrawlFailed e)
              ∈ trace (crawl w base_url instruction max_depth st).2).
Proof.
  split_and!.
  - intros report. destruct (launch_browser w) as [[]|e] eqn:Hlaunch.
    + destruct (crawl_launched w base_url instruction max_depth st Hlaunch)
        as (st1 & evs & _ & _ & _ & _ & -> & _).
      by destruct (close_browser w).
    + by rewrite (crawl_not_launched _ _ _ _ _ e).
  - intros Hlaunch Hclose.
    destruct (crawl_launched w base_url instruction max_depth st Hlaunch)
      as (st1 & evs & _ & _ & _ & _ & -> & _).
    by rewrite Hclose.
  - intros Hlaunch base.
    destruct (crawl_launched w base_url instruction max_depth st Hlaunch)
      as (st1 & evs & Hrun & Hsame & Htr & _ & _ & Hfail).
    exists st1. split_and!; [done|done|].
    intros e He. rewrite Htr. apply elem_of_app; right. by apply Hfail.
Qed.

(** C6.  A page entered at [max_depth] adds itself to the visited set and
    nothing else; no link is classified and no URL entered below it.
    With [max_depth = 0] a crawl of a new crawler visits exactly the
    normalised base URL and classifies no link. *)
Theorem no_expansion_at_max_depth w base_url instruction :
  (∀ fuel url depth st,
     url ∉ visited_urls st →
     ∃ st' evs,
       crawl_page w (S fuel) url base_url instruction depth depth st = Some st'
       ∧ visited_urls st' = {[url]} ∪ visited_urls st
       ∧ trace st' = trace st ++ EvVisit url depth :: evs
       ∧ (∀ u d, EvVisit u d ∉ evs)
       ∧ (∀ link_text href sur, EvFollow link_text href sur ∉ evs))
  ∧ (launch_browser w = Ok tt →
     let st' := (crawl w base_url instruction 0 init).2 in
     visited_urls st' = {[normalize_base_url base_url]}
     ∧ (∀ u d, EvVisit u d ∈ trace st' →
          u = normalize_base_url base_url ∧ d = 0%Z)
     ∧ (∀ link_text href sur, EvFollow link_text href sur ∉ trace st')).
Proof.
  split; [intros; by apply crawl_page_leaf|].
  intros Hlaunch st'.
  destruct (crawl_launched w base_url instruction 0 init Hlaunch)
    as (st1 & evs & Hrun & (Hv & _) & Htr & Hlog & _).
  destruct (crawl_page_leaf w (normalize_base_url base_url) instruction 0
              (normalize_base_url base_url) 0 (set_page blank_page init))
    as (st2 & evs2 & Hrun2 & Hv2 & Htr2 & Hnv & Hnf);
    [by apply not_elem_of_empty|].
  change (crawl_fuel 0 0) with 1 in Hrun. rewrite Hrun in Hrun2.
  injection Hrun2 as <-. rewrite Forall_forall in Hlog.
  subst st'. rewrite Hv, Htr, Hv2, Htr2. simpl. split_and!.
  - by rewrite union_empty_r_L.
  - intros u d [[= -> ->]|Hin]%elem_of_cons; [done|].
    apply elem_of_app in Hin as [Hin|Hin];
      [by apply Hnv in Hin|by apply Hlog in Hin].
  - intros lt h s [?|Hin]%elem_of_cons; [done|].
    apply elem_of_app in Hin as [Hin|Hin];
      [by apply Hnf in Hin|by apply Hlog in Hin].
Qed.

(** C7.  During a call of [crawl_page] every link handed to the follow
    classifier starts with [base_url], and every URL in the visited set
    was there before, is the URL of the call, or starts with [base_url].
    After a crawl of a new crawler every classified link and every
    visited URL starts with the normalised base URL. *)
Theorem out_of_domain_never_followed w instruction max_depth :
  (∀ fuel url base_url depth st st',
     crawl_page w fuel url base_url instruction depth max_depth st = Some st' →
     ∃ evs,
       trace st' = trace st ++ evs
       ∧ (∀ link_text href sur,
            EvFollow link_text href sur ∈ evs →
            PyStr.startswith href base_url = true)
       ∧ ∀ u, u ∈ visited_urls st' →
           u ∈ visited_urls st ∨ u = url
           ∨ PyStr.startswith u base_url = true)
  ∧ ∀ base_url,
      let st' := (crawl w base_url instruction max_depth init).2 in
      (∀ link_text href sur,
         EvFollow link_text href sur ∈ trace st' →
         PyStr.startswith href (normalize_base_url base_url) = true)
      ∧ ∀ u, u ∈ visited_urls st' →
          PyStr.startswith u (normalize_base_url base_url) = true.
Proof.
  split; [intros; by eapply crawl_page_confined|].
  intros base_url st'. subst st'.
  destruct (launch_browser w) as [[]|e] eqn:Hlaunch;
    [|rewrite (crawl_not_launched _ _ _ _ _ e) by done; simpl; split;
      [by intros ??? ?%elem_of_nil|by intros ? ?%elem_of_empty]].
  destruct (crawl_launched w base_url instruction max_depth init Hlaunch)
    as (st1 & evs & Hrun & (Hv & _) & Htr & Hlog & _).
  apply crawl_page_confined in Hrun as (evs1 & Htr1 & Hfol & Hvis).
  rewrite Forall_forall in Hlog. rewrite Hv, Htr, Htr1. simpl. split.
  - intros lt h s [Hin|Hin]%elem_of_app; [by eapply Hfol|by apply Hlog in Hin].
  - intros u [Hin|[->|?]]%Hvis; [by apply elem_of_empty in Hin| |done].
    apply startswith_refl.
Qed.


Lemma crawl_depth_index_inv w base_url instruction max_depth st :
  depth_index_inv st →
  depth_index_inv (crawl w base_url instruction max_depth st).2.
Proof.
  intros Hinv. apply crawl_inv; [apply depth_index_inv_mono| |done].
  intros. by eapply crawl_page_depth_index_inv.
Qed.

(** ** The files and the depth index *)

Section Files.

Context (w : World).

(** The traversal writes no file. *)
Lemma crawl_page_files base_url instruction max_depth fuel url depth st st' :
  crawl_page w fuel url base_url instruction depth max_depth st = Some st' →
  files st' = files st.
Proof.
  intros Hrun.
  eapply (crawl_page_inv w base_url instruction max_depth
            (λ s, files s = files st) (λ _ _, True)); [|done|done|exact Hrun].
  intros u d s r s' Hs _ _ _ Hvisit. split; [|done].
  apply page_step_spec in Hvisit as (evs & [_ Hfiles _ _ _ _ _ _ _]).
  by rewrite Hfiles.
Qed.

(** What [crawl] leaves in the files once the browser is there. *)
Lemma crawl_files base_url instruction max_depth st :
  launch_browser w = Ok tt →
  let base := normalize_base_url base_url in
  let st' := (crawl w base_url instruction max_depth st).2 in
  ∃ st1,
    crawl_page w (crawl_fuel 0 max_depth) base base instruction 0 max_depth
      (set_page blank_page st) = Some st1
    ∧ same_results st1 st'
    ∧ let name := report_name w (trace st1) in
      (∀ e, open_write w (trace st1) name = Raise e →
            files st' = files st)
      ∧ (∀ e, open_write w (trace st1) name = Ok tt →
              write_json w (trace st1) name = Raise e →
              files st' = <[name := Incomplete]> (files st))
      ∧ (open_write w (trace st1) name = Ok tt →
         write_json w (trace st1) name = Ok tt →
         files st'
         = <[name := Written (build_results w base instruction st1)]>
             (files st)).
Proof.
  intros Hlaunch base st'.
  destruct (crawl_launched w base_url instruction max_depth st Hlaunch)
    as (st1 & evs & Hsome & Hsame & _).
  fold base in Hsome.
  exists st1. split; [exact Hsome|]. split; [exact Hsame|].
  subst st'. unfold crawl. rewrite Hlaunch. fold base.
  assert (Hrun : crawl_page_run w base base instruction 0 max_depth
                   (set_page blank_page st) = (Ok tt, st1)).
  { unfold crawl_page_run. by rewrite Hsome. }
  apply crawl_page_files in Hsome as Hfiles.
  unfold try_catch, bind, save_results, log, modify. rewrite Hrun.
  destruct (open_write w (trace st1) _) as [[]|e0];
    [destruct (write_json w (trace st1) _) as [[]|e1]|];
    destruct (close_browser w); simpl; rewrite ?Hfiles;
    split_and!; (done || by intros).
Qed.

(** Whatever happens to a page, the list of its depth is there when its
    processing starts and when it ends; the page is added to it only
    with the verdict [True]. *)
Lemma load_page_depth_entry instruction url depth st r st_a :
  load_page w url instruction depth (enter url depth st) = (r, st_a) →
  let old := default [] (depth_data st !! depth) in
  depth_data (enter url depth st) !! depth = Some old
  ∧ (depth_data st_a !! depth = Some old
     ∨ (depth_data st_a !! depth = Some (old ++ [url])
        ∧ page_relevance st_a !! url = Some true)).
Proof.
  intros Hload old.
  assert (Hold : depth_data (enter url depth st) !! depth = Some old).
  { by rewrite enter_depth_lookup, decide_True. }
  split; [exact Hold|].
  assert (Hvisit : visit_page w url url instruction depth depth
                     (enter url depth st)
                   = (match r with Ok _ => Ok [] | Raise e => Raise e end,
                      st_a)).
  { unfold visit_page, bind. rewrite Hload. destruct r as [[]|e]; [|done].
    by rewrite bool_decide_eq_false_2 by lia. }
  apply page_step_spec in Hvisit as (evs & [_ _ _ _ _ _ _ _ Hres]).
  assert (Hdd : ∀ r', depth_data (after_page (A:=list (string * bool)) url r' st_a) = depth_data st_a)
    by (by intros []).
  assert (Hpr : ∀ r', page_relevance (after_page (A:=list (string * bool)) url r' st_a) = page_relevance st_a)
    by (by intros []).
  destruct Hres as [(_ & _ & Hd & _)|[(b & _ & _ & Hd & _)|(rec & Hp & _ & Hd)]];
    rewrite Hdd in Hd; rewrite ?Hpr in *.
  - left. by rewrite Hd.
  - left. by rewrite Hd.
  - right. rewrite Hd, Hp. by rewrite !lookup_insert_eq.
Qed.

End Files.

(** C9.  After a crawl, no URL is twice in a list of the depth index, no
    URL is in the lists of two depths, and every listed URL is a key of
    [page_data] and has the verdict [True] in [page_relevance]. *)
Theorem depth_index_sound w base_url instruction max_depth st :
  depth_index_inv st →
  let st' := (crawl w base_url instruction max_depth st).2 in
  (∀ d urls, depth_data st' !! d = Some urls → NoDup urls)
  ∧ (∀ d1 d2 urls1 urls2 u,
       depth_data st' !! d1 = Some urls1 → depth_data st' !! d2 = Some urls2 →
       u ∈ urls1 → u ∈ urls2 → d1 = d2)
  ∧ ∀ d urls u,
      depth_data st' !! d = Some urls → u ∈ urls →
      is_Some (page_data st' !! u) ∧ page_relevance st' !! u = Some true.
Proof.
  intros Hinv st'.
  destruct (crawl_depth_index_inv w base_url instruction max_depth st Hinv)
    as (Hnd & Hmem & Hdisj & _).
  split_and!; [done|done|].
  intros d urls u Hd Hin. by destruct (Hmem d urls u Hd Hin) as (_ & ? & ? & _).
Qed.

(** C10.  A URL entered at a depth finds the list of that depth in the
    depth index, empty if there was none, when the loading of its page
    starts, and whatever happens to the page the list is there
    afterwards, with the URL added only if the page is relevant.  So
    after a crawl every depth at which a URL was entered is a key of the
    depth index, and of [depth_analysis] in the report that was written
    to the file, with its list and the length of the list; the list is
    empty when no page entered at that depth is relevant. *)
Theorem depth_entry_on_entering w base_url instruction max_depth st :
  depth_index_inv st →
  let base := normalize_base_url base_url in
  let st' := (crawl w base_url instruction max_depth st).2 in
  (∀ url d st0 r st_a,
     load_page w url instruction d (enter url d st0) = (r, st_a) →
     let old := default [] (depth_data st0 !! d) in
     depth_data (enter url d st0) !! d = Some old
     ∧ (depth_data st_a !! d = Some old
        ∨ (depth_data st_a !! d = Some (old ++ [url])
           ∧ page_relevance st_a !! url = Some true)))
  ∧ (∀ u d, EvVisit u d ∈ trace st' →
       ∃ urls,
         depth_data st' !! d = Some urls
         ∧ ((∀ v, EvVisit v d ∈ trace st' →
                  page_relevance st' !! v ≠ Some true) →
            urls = []))
  ∧ (launch_browser w = Ok tt →
     ∃ st1,
       crawl_page w (crawl_fuel 0 max_depth) base base instruction 0
         max_depth (set_page blank_page st) = Some st1
       ∧ (write_outcome w (trace st1) (report_name w (trace st1)) = Ok tt →
          ∃ report,
            files st' !! report_name w (trace st1) = Some (Written report)
            ∧ ∀ u d, EvVisit u d ∈ trace st' →
                ∃ urls,
                  depth_data st' !! d = Some urls
                  ∧ r_depth_analysis report !! (pretty d : string)
                    = Some (urls, length urls)
                  ∧ ((∀ v, EvVisit v d ∈ trace st' →
                           page_relevance st' !! v ≠ Some true) →
                     urls = []))).
Proof.
  intros Hinv base st'. split.
  { intros url d st0 r st_a. apply load_page_depth_entry. }
  assert (Hkeys : ∀ u d, EvVisit u d ∈ trace st' →
            ∃ urls,
              depth_data st' !! d = Some urls
              ∧ ((∀ v, EvVisit v d ∈ trace st' →
                       page_relevance st' !! v ≠ Some true) →
                 urls = [])).
  { intros u d Hin.
    destruct (crawl_depth_index_inv w base_url instruction max_depth st Hinv)
      as (_ & Hmem & _ & Hkey).
    fold st' in Hmem, Hkey.
    destruct (Hkey u d Hin) as [urls Hd]. exists urls. split; [done|].
    intros Hnone. destruct urls as [|v urls]; [done|].
    destruct (Hmem d (v :: urls) v Hd) as (_ & _ & Hrel & Hvis);
      [by apply elem_of_cons; left|].
    by destruct (Hnone v Hvis). }
  split; [exact Hkeys|].
  intros Hlaunch.
  destruct (crawl_files w base_url instruction max_depth st Hlaunch)
    as (st1 & Hrun & Hsame & _ & _ & Hok).
  fold base st' in Hrun, Hsame, Hok.
  exists st1. split; [exact Hrun|]. unfold write_outcome. intros Hw.
  destruct (open_write w (trace st1) _) as [[]|e] eqn:Ho; [|done].
  exists (build_results w base instruction st1).
  split; [rewrite (Hok eq_refl Hw); apply lookup_insert_eq|].
  intros u d Hin.
  destruct (Hkeys u d Hin) as (urls & Hd & Hnone).
  exists urls. split_and!; [done| |done].
  destruct Hsame as (_ & _ & _ & Hdd & _). simpl.
  rewrite lookup_kmap; [|apply _]. by rewrite lookup_fmap, <- Hdd, Hd.
Qed.


(** ** The statements on the small site *)

(** The cycle between the home page and the pricing page is walked once. *)
Example demo_cycle :
  visit_urls (trace (Demo.run true true 2))
  = [Demo.home; Demo.pricing; Demo.docs]
  ∧ visited_urls (Demo.run true true 2)
    = {[Demo.home; Demo.pricing; Demo.docs]}.
Proof. split; vm_compute; reflexivity. Qed.

(** C1 fails as stated: the docs page is entered and does not load, so it
    is in the visited set and has no entry in the relevance map. *)
Lemma relevance_domain_counterexample :
  ¬ (∀ u, u ∈ visited_urls (Demo.run true true 2)
          ↔ is_Some (page_relevance (Demo.run true true 2) !! u)).
Proof.
  intros Hall.
  assert (Hin : Demo.docs ∈ visited_urls (Demo.run true true 2)).
  { compute_done. }
  apply Hall in Hin as [b Hb]. vm_compute in Hb. discriminate Hb.
Qed.

(** On the small site: the invariant holds at the start, the domain is
    within the visited set, and the docs page has its error record. *)
Lemma relevance_domain_within_visited_witness :
  relevance_inv init
  ∧ dom (page_relevance (Demo.run true true 2))
    ⊆ visited_urls (Demo.run true true 2)
  ∧ ∃ e, EvLog (LogCrawlError Demo.docs e) ∈ trace (Demo.run true true 2).
Proof.
  split; [exact relevance_inv_init|].
  destruct (relevance_domain_within_visited (Demo.world true true)
              "pricing information" 2 init (Demo.run true true 2)
              relevance_inv_init
              (or_intror (ex_intro _ "example.com" eq_refl)))
    as (Hsub & Hmiss & _).
  split; [exact Hsub|]. apply Hmiss.
  - compute_done.
  - compute_done.
Defined.

(** C3 fails on the code: with the keyword model down every page entered
    asks for the keywords again, here three times in one run. *)
Theorem keyword_expansion_repeated :
  Demo.expansions (trace (Demo.run false true 1)) = 3
  ∧ visit_urls (trace (Demo.run false true 1))
    = [Demo.home; Demo.pricing; Demo.docs]
  ∧ keywords (Demo.run false true 1) = [].
Proof. split_and!; vm_compute; reflexivity. Qed.

(** C4 fails as stated: the three links of the home page are classified
    before the pricing page, the first of them, is entered. *)
Lemma sibling_classified_before_descent :
  Demo.steps (trace (Demo.run true true 1))
  = [EvVisit Demo.home 0;
     EvFollow "Pricing" Demo.pricing "Pricing";
     EvFollow "Careers" Demo.careers "Careers";
     EvFollow "Docs" Demo.docs "Docs";
     EvVisit Demo.pricing 1;
     EvVisit Demo.docs 1]
  ∧ Demo.steps (trace (Demo.run true true 1))
    ≠ [EvVisit Demo.home 0;
       EvFollow "Pricing" Demo.pricing "Pricing";
       EvVisit Demo.pricing 1;
       EvFollow "Careers" Demo.careers "Careers";
       EvFollow "Docs" Demo.docs "Docs";
       EvVisit Demo.docs 1].
Proof. split; vm_compute; [reflexivity|discriminate]. Qed.

(** On the small site, for the call at the home page with depth bound 1:
    the three links of the domain are classified, then the loop descends
    into the pricing page, passes over the careers page and descends into
    the docs page. *)
Lemma links_classified_before_descent_witness :
  (Demo.home ∉ visited_urls init)
  ∧ (0 ≤ 1)%Z
  ∧ crawl_page (Demo.world true true) 2 Demo.home Demo.home
      "pricing information" 0 1 init
    = Some (crawl_page_run (Demo.world true true) Demo.home Demo.home
              "pricing information" 0 1 init).2
  ∧ ∃ st_a st_l,
      load_page (Demo.world true true) Demo.home "pricing information" 0
        (enter Demo.home 0 init) = (Ok tt, st_a)
      ∧ analyze_page_links (Demo.world true true) Demo.home Demo.home
          "pricing information" st_a
        = (Ok [(Demo.pricing, true); (Demo.careers, false);
               (Demo.docs, true)], st_l)
      ∧ Demo.steps (trace st_l)
        = [EvVisit Demo.home 0;
           EvFollow "Pricing" Demo.pricing "Pricing";
           EvFollow "Careers" Demo.careers "Careers";
           EvFollow "Docs" Demo.docs "Docs"]
      ∧ descends (Demo.world true true) 1 Demo.home "pricing information"
          (0 + 1) 1
          [(Demo.pricing, true); (Demo.careers, false); (Demo.docs, true)]
          st_l
          (crawl_page_run (Demo.world true true) Demo.home Demo.home
             "pricing information" 0 1 init).2.
Proof.
  assert (Hfresh : Demo.home ∉ visited_urls init) by apply not_elem_of_empty.
  assert (Hrun : crawl_page (Demo.world true true) 2 Demo.home Demo.home
                   "pricing information" 0 1 init
                 = Some (crawl_page_run (Demo.world true true) Demo.home
                           Demo.home "pricing information" 0 1 init).2)
    by (vm_compute; reflexivity).
  split_and!; [exact Hfresh|lia|exact Hrun|].
  destruct (links_classified_before_descent (Demo.world true true) 2
              Demo.home Demo.home "pricing information" 0 1 init _ Hfresh
              ltac:(lia) Hrun)
    as (r & st_a & evs_load & Hload & _ & _ & _ & Hrest).
  assert (Hr : r = Ok tt).
  { apply (f_equal fst) in Hload. vm_compute in Hload. by rewrite <- Hload. }
  subst r. rewrite bool_decide_eq_true_2 in Hrest by lia.
  destruct Hrest as (lr & st_l & evs_links & Han & _ & _ & _ & _ & Hdesc).
  exists st_a, st_l.
  assert (Hlr : lr = [(Demo.pricing, true); (Demo.careers, false);
                      (Demo.docs, true)]).
  { pose proof Hload as Ha. apply (f_equal snd) in Ha. simpl in Ha.
    subst st_a. apply (f_equal fst) in Han. vm_compute in Han.
    by injection Han as <-. }
  subst lr. split_and!; [exact Hload|exact Han| |exact Hdesc].
  apply (f_equal snd) in Hload, Han. simpl in Hload, Han.
  subst st_l st_a. vm_compute. reflexivity.
Defined.

(** C5 fails as stated: the disk is full, and [crawl] hands back [None],
    not the report. *)
Lemma crawl_report_counterexample :
  (crawl (Demo.world true false) "example.com" "pricing information" 1 init).1
  = Ok PyNone
  ∧ ¬ ∃ report,
        (crawl (Demo.world true false) "example.com" "pricing information" 1
           init).1 = Ok (PyReport report).
Proof.
  assert (Hret : (crawl (Demo.world true false) "example.com"
                    "pricing information" 1 init).1 = Ok PyNone)
    by (vm_compute; reflexivity).
  split; [exact Hret|]. intros [report Hrep]. rewrite Hret in Hrep.
  discriminate Hrep.
Qed.

(** On the small site with a full disk: [None] comes back, the failure is
    logged, and the visited set is that of the traversal. *)
Lemma crawl_returns_none_witness :
  launch_browser (Demo.world true false) = Ok tt
  ∧ close_browser (Demo.world true false) = Ok tt
  ∧ (crawl (Demo.world true false) "example.com" "pricing information" 1
       init).1 = Ok PyNone
  ∧ EvLog (LogCrawlFailed "disk full") ∈ trace (Demo.run true false 1)
  ∧ visited_urls (Demo.run true false 1)
    = {[Demo.home; Demo.pricing; Demo.docs]}.
Proof.
  destruct (crawl_returns_none (Demo.world true false) "example.com"
              "pricing information" 1 init) as (_ & Hnone & Hkeep).
  split_and!; [reflexivity|reflexivity|exact (Hnone eq_refl eq_refl)| |].
  - destruct (Hkeep eq_refl) as (st1 & _ & _ & Hfail).
    apply (Hfail "disk full"). reflexivity.
  - vm_compute. reflexivity.
Defined.

(** On the small site with depth bound 0: only the home page is visited. *)
Lemma no_expansion_at_max_depth_witness :
  launch_browser (Demo.world true true) = Ok tt
  ∧ visited_urls (crawl (Demo.world true true) "example.com"
                    "pricing information" 0 init).2
    = {[normalize_base_url "example.com"]}
  ∧ Demo.pricing ∉ visited_urls (Demo.run true true 0).
Proof.
  destruct (no_expansion_at_max_depth (Demo.world true true) "example.com"
              "pricing information") as [_ Hcrawl].
  destruct (Hcrawl eq_refl) as (Hvis & _ & _).
  split_and!; [reflexivity|exact Hvis|].
  unfold Demo.run. rewrite Hvis. intros Hin%elem_of_singleton.
  vm_compute in Hin. discriminate Hin.
Defined.

(** On the small site: the link to the other site is never entered. *)
Lemma out_of_domain_never_followed_witness :
  crawl_page (Demo.world true true) 3 Demo.home Demo.home
    "pricing information" 0 2 init
  = Some (crawl_page_run (Demo.world true true) Demo.home Demo.home
            "pricing information" 0 2 init).2
  ∧ Demo.elsewhere
    ∉ visited_urls (crawl_page_run (Demo.world true true) Demo.home Demo.home
                      "pricing information" 0 2 init).2.
Proof.
  assert (Hrun : crawl_page (Demo.world true true) 3 Demo.home Demo.home
                   "pricing information" 0 2 init
                 = Some (crawl_page_run (Demo.world true true) Demo.home
                           Demo.home "pricing information" 0 2 init).2)
    by (vm_compute; reflexivity).
  split; [exact Hrun|].
  destruct (out_of_domain_never_followed (Demo.world true true)
              "pricing information" 2) as [Hpage _].
  destruct (Hpage _ _ _ _ _ _ Hrun) as (evs & _ & _ & Hvis).
  intros [Hin|[Heq|Hpre]]%Hvis.
  - by apply elem_of_empty in Hin.
  - vm_compute in Heq. discriminate Heq.
  - vm_compute in Hpre. discriminate Hpre.
Defined.


(** On the small site: the pricing page is listed at depth 1 and is
    relevant. *)
Lemma depth_index_sound_witness :
  depth_index_inv init
  ∧ (∀ d urls, depth_data (Demo.run true true 2) !! d = Some urls → NoDup urls)
  ∧ depth_data (Demo.run true true 2) !! 1%Z = Some [Demo.pricing]
  ∧ page_relevance (Demo.run true true 2) !! Demo.pricing = Some true.
Proof.
  split; [exact depth_index_inv_init|].
  destruct (depth_index_sound (Demo.world true true) "example.com"
              "pricing information" 2 init depth_index_inv_init)
    as (Hnd & _ & Hmem).
  assert (Hd : depth_data (Demo.run true true 2) !! 1%Z = Some [Demo.pricing])
    by (vm_compute; reflexivity).
  split_and!; [exact Hnd|exact Hd|].
  apply (Hmem 1%Z [Demo.pricing] Demo.pricing Hd). by apply elem_of_cons; left.
Defined.

(** On the small site: the docs page is entered at depth 2 and does not
    load; depth 2 is in the report with an empty list. *)
Lemma depth_entry_on_entering_witness :
  depth_index_inv init
  ∧ launch_browser (Demo.world true true) = Ok tt
  ∧ EvVisit Demo.docs 2 ∈ trace (Demo.run true true 2)
  ∧ page_relevance (Demo.run true true 2) !! Demo.docs = None
  ∧ ∃ report,
      files (Demo.run true true 2) !! "semantic_results_20241105_100000.json"
      = Some (Written report)
      ∧ depth_data (Demo.run true true 2) !! 2%Z = Some []
      ∧ r_depth_analysis report !! "2" = Some ([], 0%nat).
Proof.
  split; [exact depth_index_inv_init|]. split; [reflexivity|].
  assert (Hin : EvVisit Demo.docs 2 ∈ trace (Demo.run true true 2)).
  { compute_done. }
  split; [exact Hin|]. split; [vm_compute; reflexivity|].
  destruct (depth_entry_on_entering (Demo.world true true) "example.com"
              "pricing information" 2 init depth_index_inv_init)
    as (_ & _ & Hfile).
  destruct (Hfile eq_refl) as (st1 & _ & Hok).
  destruct (Hok eq_refl) as (report & Hrep & Hkeys).
  destruct (Hkeys Demo.docs 2%Z Hin) as (urls & Hd & Hda & _).
  assert (Hurls : urls = []).
  { vm_compute in Hd. by injection Hd as <-. }
  subst urls. exists report. split_and!; [exact Hrep|exact Hd|exact Hda].
Defined.

(** * Further properties *)

(** ** Strings *)

Lemma str_append_cons c s t : String c s +:+ t = String c (s +:+ t).
Proof. reflexivity. Qed.

Lemma str_prefix_empty s : String.prefix EmptyString s = true.
Proof. by destruct s. Qed.

Lemma str_prefix_app p s : String.prefix p (p +:+ s) = true.
Proof.
  induction p as [|c p IH]; [apply str_prefix_empty|]. rewrite str_append_cons. simpl.
  by destruct (ascii_dec c c).
Qed.

Lemma str_prefix_app_r p s t :
  String.prefix p s = true → String.prefix p (s +:+ t) = true.
Proof.
  revert s. induction p as [|c p IH]; intros s; [intros; apply str_prefix_empty|].
  destruct s as [|c' s]; [done|]. rewrite str_append_cons. simpl.
  destruct (ascii_dec c c'); [apply IH|done].
Qed.

Lemma str_rev_app_app s1 s2 acc :
  String.rev_app (s1 +:+ s2) acc = String.rev_app s2 (String.rev_app s1 acc).
Proof.
  revert acc. induction s1 as [|c s1 IH]; intros acc; [done|].
  rewrite str_append_cons. simpl. apply IH.
Qed.

Lemma str_append_assoc s t u : (s +:+ t) +:+ u = s +:+ (t +:+ u).
Proof.
  induction s as [|c s IH]; [done|]. rewrite !str_append_cons. by rewrite IH.
Qed.

Lemma str_rev_app_acc s acc : String.rev_app s acc = String.rev s +:+ acc.
Proof.
  unfold String.rev. revert acc.
  induction s as [|c s IH]; intros acc; simpl; [done|].
  rewrite (IH (String c acc)), (IH (String c EmptyString)).
  by rewrite str_append_assoc.
Qed.

Lemma str_rev_append s t : String.rev (s +:+ t) = String.rev t +:+ String.rev s.
Proof. unfold String.rev at 1. by rewrite str_rev_app_app, str_rev_app_acc. Qed.

Lemma endswith_app s p : PyStr.endswith (s +:+ p) p = true.
Proof. unfold PyStr.endswith. rewrite str_rev_append. apply str_prefix_app. Qed.

Lemma startswith_app_r s p t :
  PyStr.startswith s p = true → PyStr.startswith (s +:+ t) p = true.
Proof. apply str_prefix_app_r. Qed.

(** ** The base URL *)

(** X1.  Whatever the caller passes as base URL, the URL [crawl] works
    with starts with [http://] or [https://] and ends with a slash. *)
Theorem normalize_base_url_shape base_url :
  has_scheme (normalize_base_url base_url) = true
  ∧ PyStr.endswith (normalize_base_url base_url) "/" = true.
Proof.
  unfold normalize_base_url, has_scheme.
  destruct (PyStr.startswith base_url "http://"
            || PyStr.startswith base_url "https://") eqn:Hs.
  - destruct (PyStr.endswith base_url "/") eqn:He; [done|].
    split; [|apply endswith_app].
    apply orb_true_iff in Hs as [Hs|Hs]; apply orb_true_iff;
      [left|right]; by apply startswith_app_r.
  - destruct (PyStr.endswith ("https://" +:+ base_url) "/") eqn:He.
    + split; [|done]. apply orb_true_iff; right. apply str_prefix_app.
    + split; [|apply endswith_app].
      apply orb_true_iff; right. apply startswith_app_r, str_prefix_app.
Qed.

(** X2.  A base URL that has a scheme and a final slash is taken as it
    is, and normalising twice is normalising once. *)
Theorem normalize_base_url_idempotent base_url :
  (has_scheme base_url = true → PyStr.endswith base_url "/" = true →
   normalize_base_url base_url = base_url)
  ∧ normalize_base_url (normalize_base_url base_url)
    = normalize_base_url base_url.
Proof.
  assert (Hfix : ∀ b, has_scheme b = true → PyStr.endswith b "/" = true →
            normalize_base_url b = b).
  { intros b Hs He. unfold normalize_base_url. unfold has_scheme in Hs.
    by rewrite Hs, He. }
  split; [apply Hfix|].
  destruct (normalize_base_url_shape base_url) as [Hs He]. by apply Hfix.
Qed.

(** ** Keywords *)

Lemma str_rev_cons c s :
  String.rev (String c s) = String.rev s +:+ String c EmptyString.
Proof. unfold String.rev at 1. simpl. by rewrite str_rev_app_acc. Qed.

Lemma str_rev_involutive s : String.rev (String.rev s) = s.
Proof.
  induction s as [|c s IH]; [done|].
  rewrite str_rev_cons, str_rev_append, IH. done.
Qed.

Lemma lstrip_clean s : clean_start (PyStr.lstrip s).
Proof.
  induction s as [|c s IH]; simpl; [done|].
  destruct (PyStr.isspace c) eqn:Hc; [done|]. simpl. done.
Qed.

Lemma lstrip_suffix s : ∃ ws, s = ws +:+ PyStr.lstrip s.
Proof.
  induction s as [|c s [ws IH]]; simpl; [by exists EmptyString|].
  destruct (PyStr.isspace c).
  - exists (String c ws). rewrite str_append_cons. by rewrite <- IH.
  - by exists EmptyString.
Qed.

Lemma clean_start_app s t :
  clean_start (s +:+ t) → s ≠ EmptyString → clean_start s.
Proof. by destruct s. Qed.

Lemma strip_clean s :
  clean_start (PyStr.strip s) ∧ clean_start (String.rev (PyStr.strip s)).
Proof.
  unfold PyStr.strip. rewrite str_rev_involutive. split; [|apply lstrip_clean].
  pose proof (lstrip_clean s) as Ht. set (t := PyStr.lstrip s) in *.
  destruct (lstrip_suffix (String.rev t)) as [ws Hws].
  set (v := PyStr.lstrip (String.rev t)) in *.
  destruct (String.rev v) as [|c r] eqn:Hv; [done|].
  apply (clean_start_app _ (String.rev ws)); [|done].
  rewrite <- Hv, <- str_rev_append, <- Hws, str_rev_involutive. done.
Qed.

Lemma split_go_length sep cur s :
  length (PyStr.split_go sep cur s) = S (occurrences sep s).
Proof.
  revert cur. induction s as [|c s IH]; intros cur; simpl; [done|].
  destruct (Ascii.eqb c sep); simpl; by rewrite IH.
Qed.

(** X3.  When the oracle answers, [get_semantic_keywords] returns one
    keyword for each comma-separated field of the answer, so never the
    empty list, and no keyword starts or ends with white space. *)
Theorem keywords_of_answer w instruction st content :
  chat_create w (trace st ++ [EvExpand instruction]) "o1-mini"
    "You are a semantic analysis expert. Return only a comma-separated list of keywords."
    (keywords_prompt instruction) = Ok content →
  ∃ kws,
    (get_semantic_keywords w instruction st).1 = Ok kws
    ∧ length kws = S (occurrences "," content)
    ∧ ∀ k, k ∈ kws → clean_start k ∧ clean_start (String.rev k).
Proof.
  intros Hc. unfold get_semantic_keywords; unfold_monad; simpl.
  rewrite Hc. simpl. eexists. split; [reflexivity|]. split.
  - rewrite length_fmap. apply split_go_length.
  - intros k (x & -> & _)%list_elem_of_fmap. apply strip_clean.
Qed.

(** ** What the classification calls leave alone *)

Lemma emits_only_trace evs st : only_trace_grows st (emits evs st).
Proof. repeat split. by exists evs. Qed.

(** X4.  The three classification calls and the analysis of the links of
    a page change no field of the crawler, not the page and no file: they
    add to the trace only.  In particular [get_semantic_keywords] does
    not store the keywords it returns. *)
Theorem classification_only_traces w st :
  (∀ instruction,
     only_trace_grows st (get_semantic_keywords w instruction st).2)
  ∧ (∀ content instruction kws,
       only_trace_grows st (is_content_relevant w content instruction kws st).2)
  ∧ (∀ link_text href instruction kws sur,
       only_trace_grows st
         (should_follow_link w link_text href instruction kws sur st).2)
  ∧ (∀ current_url base_url instruction,
       only_trace_grows st
         (analyze_page_links w current_url base_url instruction st).2).
Proof.
  split_and!.
  - intros instruction.
    destruct (get_semantic_keywords_emits w instruction st) as (? & ? & -> & _).
    apply emits_only_trace.
  - intros content instruction kws.
    destruct (is_content_relevant_emits w content instruction kws st)
      as (? & ? & ->).
    apply emits_only_trace.
  - intros link_text href instruction kws sur.
    destruct (should_follow_link_emits w link_text href instruction kws sur st)
      as (? & ? & ->).
    apply emits_only_trace.
  - intros current_url base_url instruction.
    destruct (analyze_page_links w current_url base_url instruction st)
      as [r st'] eqn:Ha.
    apply analyze_page_links_spec in Ha as (? & evs & _ & -> & _).
    apply emits_only_trace.
Qed.

(** ** The dictionary of link verdicts *)

Lemma dict_set_keys {V} (k : string) (v : V) d :
  (Dict.set k v d).*1 = if decide (k ∈ d.*1) then d.*1 else d.*1 ++ [k].
Proof.
  induction d as [|[k' v'] d IH]; [done|]. cbn [Dict.set].
  case_bool_decide as Hk; subst; rewrite !fmap_cons; cbn [fst].
  - rewrite decide_True; [done|]. by apply elem_of_cons; left.
  - rewrite IH. destruct (decide (k ∈ d.*1)) as [Hin|Hnin].
    + rewrite decide_True; [done|]. by apply elem_of_cons; right.
    + rewrite decide_False; [done|].
      intros [?|?]%elem_of_cons; [by subst|done].
Qed.

Lemma dict_set_nodup {V} (k : string) (v : V) d :
  NoDup d.*1 → NoDup (Dict.set k v d).*1.
Proof.
  intros Hnd. rewrite dict_set_keys. case_decide; [done|].
  apply NoDup_app. split_and!; [done| |apply NoDup_singleton].
  intros x Hx ->%list_elem_of_singleton. done.
Qed.

Section LinkDict.

Context (w : World).

Lemma analyze_link_dict current_url base_url instruction link lr st lr' st' :
  analyze_link w current_url base_url instruction link lr st = (Ok lr', st') →
  lr' = lr ∨ ∃ u b, lr' = Dict.set u b lr.
Proof.
  unfold analyze_link; unfold_monad.
  destruct (a_href link) as [[[|c h]|]|e]; simpl;
    try (intros [= <- <-]; by left); try done.
  destruct (urljoin w current_url (String c h)) as [absolute_url|e]; simpl;
    [|done].
  destruct (PyStr.startswith absolute_url base_url
            && negb (bool_decide (absolute_url ∈ visited_urls st)));
    [|intros [= <- <-]; by left].
  destruct (a_text link) as [link_text|e]; simpl; [|done].
  destruct (a_parent link) as [parent|e]; simpl; [|done].
  match goal with
  | |- context [should_follow_link w ?a ?b ?c ?d ?e ?s] =>
      destruct (should_follow_link_emits w a b c d e s) as (b0 & x & ->)
  end.
  intros [= <- <-]. right. by eexists _, _.
Qed.

Lemma analyze_links_nodup current_url base_url instruction links :
  ∀ lr st lr' st',
    NoDup lr.*1 →
    analyze_links w current_url base_url instruction links lr st = (lr', st') →
    NoDup lr'.*1.
Proof.
  induction links as [|link rest IH]; intros lr st lr' st' Hnd; simpl.
  - by intros [= <- <-].
  - destruct (analyze_link w _ _ _ link lr st) as [[lr1|e] st1] eqn:Hlink;
      [|by intros [= <- <-]].
    apply IH.
    apply analyze_link_dict in Hlink as [->|(u & b & ->)]; [done|].
    by apply dict_set_nodup.
Qed.

End LinkDict.

(** X5.  [analyze_page_links] never raises.  The dictionary it returns
    has no key twice; every key starts with [base_url], was not visited
    when the analysis began, and was handed to [should_follow_link]
    during the analysis. *)
Theorem link_relevance_wellformed w current_url base_url instruction st :
  ∃ lr evs,
    (analyze_page_links w current_url base_url instruction st).1 = Ok lr
    ∧ trace (analyze_page_links w current_url base_url instruction st).2
      = trace st ++ evs
    ∧ NoDup lr.*1
    ∧ ∀ u b, (u, b) ∈ lr →
        PyStr.startswith u base_url = true
        ∧ (u ∉ visited_urls st)
        ∧ ∃ link_text sur, EvFollow link_text u sur ∈ evs.
Proof.
  destruct (analyze_page_links w current_url base_url instruction st)
    as [r st'] eqn:Ha.
  pose proof Ha as Hspec.
  apply analyze_page_links_spec in Hspec as (lr & evs & -> & -> & Hev & Hcl).
  exists lr, evs. split_and!; [done|done| |].
  - unfold analyze_page_links in Ha.
    destruct (pv_links (page st)) as [links|e]; [|injection Ha as <- _; constructor].
    destruct (analyze_links w _ _ _ links [] st) as [lr0 st0] eqn:Hl.
    injection Ha as <- _.
    eapply analyze_links_nodup; [|exact Hl]. constructor.
  - intros u b Hin. destruct (Hcl u b Hin) as [Hnil|(Hpre & lt & s & Hf)];
      [by apply elem_of_nil in Hnil|].
    split; [done|]. rewrite Forall_forall in Hev.
    pose proof (Hev _ Hf) as [_ Hnv]. split; [done|]. by exists lt, s.
Qed.

(** X6.  When reading the [href] of an anchor raises, the anchors after
    it are not looked at: the loop of [analyze_page_links] gives the same
    dictionary and the same state as if the page ended at that anchor. *)
Theorem analysis_stops_at_failing_anchor w current_url base_url instruction
    before bad after e lr st :
  a_href bad = Raise e →
  analyze_links w current_url base_url instruction (before ++ bad :: after)
    lr st
  = analyze_links w current_url base_url instruction (before ++ [bad]) lr st.
Proof.
  intros Hbad. revert lr st.
  induction before as [|link before IH]; intros lr st; simpl.
  - unfold analyze_link; unfold_monad. by rewrite Hbad.
  - destruct (analyze_link w _ _ _ link lr st) as [[lr1|e1] st1];
      [apply IH|done].
Qed.

(** ** The calls a page makes *)

Lemma analysis_calls base_url visited evs :
  Forall (analysis_event base_url visited) evs →
  goto_urls evs = [] ∧ expand_calls evs = [] ∧ relevance_calls evs = [].
Proof.
  induction 1 as [|e evs He _ (IH1 & IH2 & IH3)]; [done|].
  by destruct e.
Qed.

Section Calls.

Context (w : World).

Lemma visit_page_calls current_url base_url instruction depth max_depth
    st r st' :
  visit_page w current_url base_url instruction depth max_depth st = (r, st') →
  ∃ evs,
    trace st' = trace st ++ evs
    ∧ goto_urls evs = [current_url]
    ∧ expand_calls evs
      = match keywords st with [] => [instruction] | _ :: _ => [] end
    ∧ length (relevance_calls evs) ≤ 1
    ∧ (keywords st = [] →
       (get_semantic_keywords w instruction st).1 = Ok (keywords st'))
    ∧ ∀ u rec,
        page_data st' !! u = Some rec →
        page_data st !! u = Some rec
        ∨ (u = current_url ∧ record_of current_url depth st' rec).
Proof.
  unfold visit_page, load_page, goto, depth_append; unfold_monad. intros H.
  destruct (keywords st) as [|kw kws] eqn:Hkws;
    [destruct (get_semantic_keywords_emits w instruction st)
       as (kws' & x & Hg & _); rewrite Hg in H|];
    simpl in H.
  all: destruct (page_goto w _ _) as [pv|e]; simpl in H.
  all: try destruct (pv_idle pv) as [[]|e]; simpl in H.
  all: try destruct (pv_body pv) as [content|e] eqn:Hbody; simpl in H.
  all: try match type of H with
       | context [is_content_relevant w ?c ?i ?k ?s] =>
           destruct (is_content_relevant_emits w c i k s)
             as ([] & y & Hr); rewrite Hr in H; simpl in H
       end.
  all: try destruct (pv_title pv) as [title|e] eqn:Htitle; simpl in H.
  all: try match type of H with
       | context [depth_data ?s !! ?d] =>
           destruct (depth_data s !! d) as [urls|] eqn:Hd; simpl in H
       end.
  all: try (case_bool_decide as Hlt; simpl in H).
  all: try match type of H with
       | analyze_page_links _ _ _ _ _ = _ =>
           apply analyze_page_links_spec in H
             as (lr & evs & -> & -> & Hev & Hcl);
           apply analysis_calls in Hev as (Hev1 & Hev2 & Hev3)
       end.
  all: try (injection H as <- <-).
  all: eexists; split; [simpl; rewrite <- ?app_assoc; reflexivity|].
  all: unfold goto_urls, expand_calls, relevance_calls in *.
  all: rewrite ?omap_app, ?Hev1, ?Hev2, ?Hev3; simpl.
  all: split_and!; try done; try lia.
  all: try (intros _; by rewrite Hg).
  all: intros u rec; rewrite ?lookup_insert; try (by left).
  all: case_decide; [|by left]; subst; intros [= <-]; right; by repeat split.
Qed.

End Calls.

Section PageCalls.

Context (w : World).

Lemma page_calls url base_url instruction depth max_depth st r st' :
  visit_page w url base_url instruction depth max_depth (enter url depth st)
  = (r, st') →
  ∃ evs,
    page_step url base_url depth max_depth st r (after_page url r st') evs
    ∧ goto_urls evs = [url]
    ∧ expand_calls evs
      = match keywords st with [] => [instruction] | _ :: _ => [] end
    ∧ length (relevance_calls evs) ≤ 1
    ∧ (keywords st = [] →
       (get_semantic_keywords w instruction (enter url depth st)).1
       = Ok (keywords (after_page url r st')))
    ∧ ∀ u rec,
        page_data (after_page url r st') !! u = Some rec →
        page_data st !! u = Some rec
        ∨ (u = url ∧ record_of url depth st' rec).
Proof.
  intros Hvisit.
  destruct (page_step_spec w _ _ _ _ _ _ _ _ Hvisit) as (evs & Hps).
  destruct (visit_page_calls w _ _ _ _ _ _ _ _ Hvisit)
    as (evs' & Htr' & Hgo & Hex & Hrel & Hkw & Hrec).
  rewrite enter_keywords in Hex, Hkw. rewrite enter_trace in Htr'.
  setoid_rewrite enter_page_data in Hrec.
  pose proof (ps_trace _ _ _ _ _ _ _ _ Hps) as Htr.
  exists evs. split; [done|].
  assert (Heq : evs = evs' ++ match r with
                              | Ok _ => []
                              | Raise e => [EvLog (LogCrawlError url e)]
                              end).
  { destruct r as [lr|e]; simpl in Htr.
    - rewrite Htr', <- app_assoc in Htr. apply app_inv_head in Htr.
      simpl in Htr. injection Htr as <-. by rewrite app_nil_r.
    - rewrite Htr', <- !app_assoc in Htr. apply app_inv_head in Htr.
      simpl in Htr. by injection Htr as <-. }
  assert (Hproj : goto_urls evs = goto_urls evs'
                  ∧ expand_calls evs = expand_calls evs'
                  ∧ relevance_calls evs = relevance_calls evs').
  { rewrite Heq. unfold goto_urls, expand_calls, relevance_calls.
    rewrite !omap_app. destruct r; simpl; by rewrite !app_nil_r. }
  destruct Hproj as (-> & -> & ->).
  split_and!; try done.
  - intros Hk. rewrite (Hkw Hk). by destruct r.
  - intros u rec. destruct r; apply Hrec.
Qed.

End PageCalls.

Section Growth.

Context (w : World) (base_url instruction : string) (max_depth : Z).

Lemma grows_refl st : grows st st.
Proof.
  split_and!; try done.
  - exists []. by rewrite app_nil_r.
  - intros d urls Hd. exists []. by rewrite app_nil_r.
Qed.

Lemma grows_step st0 url depth st r st' :
  grows st0 st → url ∉ visited_urls st →
  visit_page w url base_url instruction depth max_depth (enter url depth st)
  = (r, st') →
  grows st0 (after_page url r st').
Proof.
  intros (Hvis & Hfiles & [evs Htr] & Hkeep & Hlists) Hfresh
    (evs1 & [Hv1 Hf1 Ht1 _ _ _ _ _ Hres])%page_step_spec.
  split_and!.
  - rewrite Hv1. set_solver.
  - by rewrite Hf1.
  - exists (evs ++ EvVisit url depth :: evs1).
    by rewrite Ht1, Htr, <- app_assoc.
  - intros u Hu. destruct (Hkeep u Hu) as [<- <-].
    assert (u ≠ url) by (intros ->; by apply Hfresh, Hvis).
    destruct Hres as [(-> & -> & _)|[(b & -> & -> & _)|(rec & -> & -> & _)]];
      by rewrite ?lookup_insert_ne.
  - intros d urls Hd. destruct (Hlists d urls Hd) as [more Hmore].
    destruct Hres as [(_ & _ & Hdd & _)|[(b & _ & _ & Hdd & _)
                                        |(rec & _ & _ & Hdd)]];
      rewrite Hdd.
    1,2: rewrite enter_depth_lookup; case_decide; subst;
         [rewrite Hmore|]; by exists more.
    rewrite lookup_insert. case_decide; subst; [|by exists more].
    rewrite Hmore. simpl. exists (more ++ [url]). by rewrite app_assoc.
Qed.

Lemma crawl_page_grows fuel url depth st st' :
  crawl_page w fuel url base_url instruction depth max_depth st = Some st' →
  grows st st'.
Proof.
  intros Hrun.
  eapply (crawl_page_inv w base_url instruction max_depth (grows st)
            (λ _ _, True)); [|apply grows_refl|done|exact Hrun].
  intros. split; [by eapply grows_step|done].
Qed.

Lemma crawl_links_grows fuel depth lr st st' :
  crawl_links
    (λ u, crawl_page w fuel u base_url instruction depth max_depth) lr st
  = Some st' →
  grows st st'.
Proof.
  intros Hrun.
  eapply (crawl_links_inv (grows st) (λ _ _, True) _ depth);
    [|apply grows_refl|done|exact Hrun].
  - intros u s s' Hs _ Hr.
    eapply (crawl_page_inv w base_url instruction max_depth (grows st)
              (λ _ _, True)); [|exact Hs|done|exact Hr].
    intros. split; [by eapply grows_step|done].
Qed.

End Growth.


(** X8.  A second call of [crawl_page] for the same URL, with the same
    bounds, changes nothing. *)
Theorem crawl_page_twice w fuel fuel' url base_url instruction depth
    max_depth st st' :
  crawl_page w fuel url base_url instruction depth max_depth st = Some st' →
  crawl_page w fuel' url base_url instruction depth max_depth st' = Some st'.
Proof.
  rewrite !crawl_page_unfold.
  destruct (bool_decide (depth > max_depth)%Z) eqn:Hd; simpl.
  { by intros [= <-]. }
  destruct (bool_decide (url ∈ visited_urls st)) eqn:Hv; simpl.
  { intros [= <-]. by rewrite Hv. }
  destruct fuel as [|fuel]; [done|].
  destruct (visit_page w _ _ _ _ _ _) as [r st1] eqn:Hvisit.
  apply page_step_spec in Hvisit as (evs & [Hv1 _ _ _ _ _ _ _ _]).
  assert (Hin : url ∈ visited_urls (after_page url r st1)).
  { rewrite Hv1. by apply elem_of_union; left; apply elem_of_singleton. }
  assert (Hend : url ∈ visited_urls st' → 
            (if bool_decide (url ∈ visited_urls st') then Some st'
             else match fuel' with
                  | 0 => None
                  | S f =>
                      match visit_page w url base_url instruction depth
                              max_depth (enter url depth st') with
                      | (Ok lr, s) =>
                          crawl_links
                            (λ u, crawl_page w f u base_url instruction
                                    (depth + 1) max_depth) lr s
                      | (Raise e, s) =>
                          Some (emit (EvLog (LogCrawlError url e)) s)
                      end
                  end) = Some st').
  { intros Hu. by rewrite bool_decide_eq_true_2. }
  destruct r as [lr|e]; simpl in Hin.
  - intros (Hsub & _)%crawl_links_grows. apply Hend. by apply Hsub.
  - intros [= <-]. by apply Hend.
Qed.



Section Ledger.

Context (w : World) (base_url instruction : string) (max_depth : Z).





Lemma depth_keys_step depth0 st0 url depth st r st' :
  depth_keys_within depth0 max_depth st0 st →
  (depth0 ≤ depth ≤ max_depth)%Z →
  visit_page w url base_url instruction depth max_depth (enter url depth st)
  = (r, st') →
  depth_keys_within depth0 max_depth st0 (after_page url r st').
Proof.
  intros Hkeys Hd (evs1 & [_ _ _ _ _ _ _ _ Hres])%page_step_spec d.
  destruct Hres as [(_ & _ & Hdd & _)|[(b & _ & _ & Hdd & _)
                                      |(rec & _ & _ & Hdd)]];
    rewrite Hdd.
  1,2: rewrite enter_depth_lookup; case_decide; subst; [by right|apply Hkeys].
  rewrite lookup_insert. case_decide; subst; [by right|apply Hkeys].
Qed.

End Ledger.



(** X11.  The depths that get a list in the depth index during a call
    of [crawl_page] at [depth] lie between [depth] and [max_depth]; after
    a crawl of a new crawler every key of the depth index is between 0
    and [max_depth]. *)
Theorem depth_keys_bounded w instruction max_depth :
  (∀ fuel url base_url depth st st',
     crawl_page w fuel url base_url instruction depth max_depth st = Some st' →
     ∀ d, is_Some (depth_data st' !! d) →
       is_Some (depth_data st !! d) ∨ (depth ≤ d ≤ max_depth)%Z)
  ∧ ∀ base_url d,
      is_Some (depth_data (crawl w base_url instruction max_depth init).2 !! d) →
      (0 ≤ d ≤ max_depth)%Z.
Proof.
  assert (Hpage : ∀ fuel url base_url depth st st',
     crawl_page w fuel url base_url instruction depth max_depth st = Some st' →
     depth_keys_within depth max_depth st st').
  { intros fuel url base_url depth st st' Hrun.
    refine (crawl_page_inv w base_url instruction max_depth
              (depth_keys_within depth max_depth st)
              (λ _ d, (depth ≤ d)%Z) _ fuel url depth st st' _ _ Hrun).
    - intros u d s r s' Hs Hd _ Hle Hvisit. simpl in Hd.
      split; [eapply (depth_keys_step w base_url instruction max_depth
                        depth st); [exact Hs| |exact Hvisit]; lia|].
      intros; simpl in *; lia.
    - intros d Hd. by left.
    - simpl. lia. }
  split; [exact Hpage|].
  intros base_url d.
  destruct (launch_browser w) as [[]|e] eqn:Hlaunch.
  - destruct (crawl_launched w base_url instruction max_depth init Hlaunch)
      as (st1 & evs & Hrun & (_ & _ & _ & -> & _) & _).
    intros Hd. destruct (Hpage _ _ _ _ _ _ Hrun d Hd) as [Hold|?]; [|done].
    simpl in Hold. rewrite lookup_empty in Hold. by destruct Hold.
  - rewrite (crawl_not_launched _ _ _ _ _ e) by done. simpl.
    rewrite lookup_empty. by intros [? ?].
Qed.

Section Records.

Context (w : World) (base_url instruction : string) (max_depth : Z).

Lemma records_inv_step url depth st r st' :
  records_inv st → url ∉ visited_urls st →
  visit_page w url base_url instruction depth max_depth (enter url depth st)
  = (r, st') →
  records_inv (after_page url r st').
Proof.
  intros Hinv Hfresh Hvisit.
  pose proof (grows_step w base_url instruction max_depth st url depth st r st'
                (grows_refl st) Hfresh Hvisit)
    as (Hsub & _ & [evs0 Htr0] & Hkeep & Hlists).
  apply page_calls in Hvisit
    as (evs & [Hv1 _ Ht1 _ _ _ _ _ Hres] & _ & _ & _ & _ & Hrec).
  set (st2 := after_page url r st') in *.
  intros u rec Hu.
  destruct (Hrec u rec Hu) as [Hold|[-> (Hurl & Hdep & _)]].
  - destruct (Hinv u rec Hold) as (Hvis & Hpu & Hrel & Htr & urls & Hd & Hin).
    destruct (Hkeep u Hvis) as [Hpr _].
    destruct (Hlists _ _ Hd) as [more Hmore].
    split_and!; [by apply Hsub|done|by rewrite Hpr| |].
    + rewrite Htr0. apply elem_of_app; by left.
    + exists (urls ++ more). split; [done|]. apply elem_of_app; by left.
  - assert (Hnone : page_data st !! url = None).
    { destruct (page_data st !! url) as [rec0|] eqn:Hp; [|done].
      by destruct (Hinv url rec0 Hp) as (? & _). }
    destruct Hres as [(_ & Hpd & _)|[(b & _ & Hpd & _)
                                    |(rec0 & Hpr & Hpd & Hdd)]].
    1,2: by rewrite Hpd, Hnone in Hu.
    split_and!; [|done| | |].
    + rewrite Hv1. by apply elem_of_union; left; apply elem_of_singleton.
    + by rewrite Hpr, lookup_insert_eq.
    + rewrite Ht1, Hdep. apply elem_of_app; right. by apply elem_of_cons; left.
    + rewrite Hdd, Hdep, lookup_insert_eq. eexists. split; [done|].
      apply elem_of_app; right. by apply elem_of_cons; left.
Qed.

Lemma crawl_page_records_inv fuel url depth st st' :
  records_inv st →
  crawl_page w fuel url base_url instruction depth max_depth st = Some st' →
  records_inv st'.
Proof.
  intros Hinv Hrun.
  eapply (crawl_page_inv w base_url instruction max_depth records_inv
            (λ _ _, True)); [|exact Hinv|done|exact Hrun].
  intros. split; [by eapply records_inv_step|done].
Qed.

End Records.

Lemma records_inv_init : records_inv init.
Proof. intros u rec Hu. simpl in Hu. by rewrite lookup_empty in Hu. Qed.

Lemma records_inv_mono st1 st2 evs :
  records_inv st1 → same_results st1 st2 →
  trace st2 = trace st1 ++ evs → Forall is_log evs → records_inv st2.
Proof.
  intros Hinv (Hv & Hpr & Hpd & Hdd & _) Htr _ u rec.
  rewrite Hpd, Hv, Hpr, Hdd, Htr. intros Hu.
  destruct (Hinv u rec Hu) as (? & ? & ? & ? & ?).
  split_and!; try done. apply elem_of_app; by left.
Qed.

(** X12.  After a crawl every record of [page_data] is filed under its
    own URL, that URL has the verdict [True], and it is listed in the
    depth index at the depth of the record; and the URLs with a record
    are exactly the URLs listed in the depth index. *)
Theorem page_records_match_depth_index w base_url instruction max_depth st :
  records_inv st → depth_index_inv st →
  let st' := (crawl w base_url instruction max_depth st).2 in
  (∀ u rec, page_data st' !! u = Some rec →
     pr_url rec = u
     ∧ page_relevance st' !! u = Some true
     ∧ ∃ urls, depth_data st' !! pr_depth rec = Some urls ∧ u ∈ urls)
  ∧ ∀ u, is_Some (page_data st' !! u)
         ↔ ∃ d urls, depth_data st' !! d = Some urls ∧ u ∈ urls.
Proof.
  intros Hrec Hidx st'.
  assert (Hrec' : records_inv st').
  { apply crawl_inv; [apply records_inv_mono| |done].
    intros. by eapply crawl_page_records_inv. }
  assert (Hidx' : depth_index_inv st') by by apply crawl_depth_index_inv.
  split.
  - intros u rec Hu. by destruct (Hrec' u rec Hu) as (_ & ? & ? & _ & ?).
  - intros u. split.
    + intros [rec Hu].
      destruct (Hrec' u rec Hu) as (_ & _ & _ & _ & urls & ? & ?).
      by exists (pr_depth rec), urls.
    + intros (d & urls & Hd & Hin).
      destruct Hidx' as (_ & Hmem & _). by destruct (Hmem d urls u Hd Hin) as (_ & ? & _).
Qed.

(** ** The report *)

Lemma length_filter_values (l : list (string * bool)) :
  length (filter (λ v, v = true) l.*2)
  = length (filter (λ kv : string * bool, kv.2 = true) l).
Proof.
  induction l as [|[k v] l IH]; [done|].
  rewrite fmap_cons, !filter_cons. simpl.
  destruct (decide (v = true)); simpl; by rewrite IH.
Qed.

Lemma size_filter_true (m : gmap string bool) :
  size (filter (λ kv : string * bool, kv.2 = true) m)
  = length (filter (λ kv : string * bool, kv.2 = true) (map_to_list m)).
Proof.
  induction m as [|i x m Hi IH] using map_ind.
  - by rewrite map_filter_empty, map_to_list_empty, map_size_empty.
  - rewrite map_to_list_insert by done. rewrite filter_cons.
    destruct (decide ((i, x).2 = true)) as [Hx|Hx].
    + rewrite map_filter_insert_True by done.
      rewrite map_size_insert_None; [by rewrite IH|].
      apply map_lookup_filter_None. by left.
    + rewrite map_filter_insert_not' by (done || by intros ? ?; simplify_eq).
      done.
Qed.

(** X13.  In the report built after a crawl the number of relevant pages
    is at most the number of pages visited, and the number of page
    records is at most the number of relevant pages. *)
Theorem report_counts_ordered w base_url instruction max_depth st :
  relevance_inv st → records_inv st →
  let st' := (crawl w base_url instruction max_depth st).2 in
  let report := build_results w (normalize_base_url base_url) instruction st' in
  size (r_page_data report) ≤ md_relevant_pages (r_metadata report)
  ∧ md_relevant_pages (r_metadata report)
    ≤ md_total_pages (r_metadata report).
Proof.
  intros Hrel Hrec st' report.
  assert (Hrel' : relevance_inv st').
  { apply crawl_inv; [apply relevance_inv_mono| |done].
    intros. by eapply crawl_page_relevance_inv. }
  assert (Hrec' : records_inv st').
  { apply crawl_inv; [apply records_inv_mono| |done].
    intros. by eapply crawl_page_records_inv. }
  subst report. simpl. rewrite length_filter_values. split.
  - set (T := filter (λ kv : string * bool, kv.2 = true) (page_relevance st')).
    trans (size T).
    + rewrite <- !size_dom. apply subseteq_size.
      intros u [rec Hu]%elem_of_dom. apply elem_of_dom. exists true.
      apply map_lookup_filter_Some. split; [|done].
      by destruct (Hrec' u rec Hu) as (_ & _ & ? & _).
    + unfold T. by rewrite size_filter_true.
  - etrans; [apply length_filter|].
    rewrite length_map_to_list, <- size_dom. apply subseteq_size.
    intros u Hu%elem_of_dom. by apply Hrel'.
Qed.


(** X15.  With a negative depth bound [crawl] enters no page: the
    results in the crawler are what they were, and only log records are
    added to the trace.  The report is written all the same when the
    browser is launched and the write succeeds: it holds the results as
    they were before the crawl, none for a new crawler. *)
Theorem negative_depth_visits_nothing w base_url instruction max_depth st :
  (max_depth < 0)%Z →
  let st' := (crawl w base_url instruction max_depth st).2 in
  let name := report_name w (trace st) in
  same_results st st'
  ∧ (∃ evs, trace st' = trace st ++ evs ∧ Forall is_log evs)
  ∧ (launch_browser w = Ok tt →
     write_outcome w (trace st) name = Ok tt →
     files st'
     = <[name := Written (build_results w (normalize_base_url base_url)
                            instruction st)]> (files st)).
Proof.
  intros Hneg st' name. subst st' name.
  destruct (launch_browser w) as [[]|e] eqn:Hlaunch.
  - destruct (crawl_launched w base_url instruction max_depth st Hlaunch)
      as (st1 & evs & Hrun & Hsame & Htr & Hlog & _).
    assert (Hrun' : crawl_page_run w (normalize_base_url base_url)
                      (normalize_base_url base_url) instruction 0 max_depth
                      (set_page blank_page st) = (Ok tt, st1)).
    { unfold crawl_page_run. by rewrite Hrun. }
    rewrite crawl_page_unfold, bool_decide_eq_true_2 in Hrun by lia.
    simpl in Hrun. injection Hrun as <-.
    split; [exact Hsame|]. split; [by exists evs|].
    intros _. unfold crawl. rewrite Hlaunch.
    unfold try_catch, bind, save_results, write_outcome, log, modify.
    rewrite Hrun'. simpl.
    destruct (open_write w (trace st) _) as [[]|e0]; [|done].
    destruct (write_json w (trace st) _) as [[]|e1]; [|done].
    intros _. by destruct (close_browser w).
  - rewrite (crawl_not_launched _ _ _ _ _ e) by done. simpl.
    split; [done|]. split; [|done]. exists []. by rewrite app_nil_r.
Qed.

Lemma demo_walk_run :
  crawl_page (Demo.world true true) 3 Demo.home Demo.home
    "pricing information" 0 2 init = Some demo_walk.
Proof. vm_compute. reflexivity. Qed.

(** A URL with scheme and final slash is kept. *)
Lemma normalize_base_url_idempotent_witness :
  has_scheme Demo.home = true
  ∧ PyStr.endswith Demo.home "/" = true
  ∧ normalize_base_url Demo.home = Demo.home.
Proof.
  split_and!; [reflexivity|reflexivity|].
  apply (normalize_base_url_idempotent Demo.home); reflexivity.
Defined.

(** The keyword model of the small site answers two fields. *)
Lemma keywords_of_answer_witness :
  chat_create (Demo.world true true)
    (trace init ++ [EvExpand "pricing information"]) "o1-mini"
    "You are a semantic analysis expert. Return only a comma-separated list of keywords."
    (keywords_prompt "pricing information") = Ok "pricing, plans "
  ∧ ∃ kws,
      (get_semantic_keywords (Demo.world true true) "pricing information"
         init).1 = Ok kws
      ∧ length kws = S (occurrences "," "pricing, plans ")
      ∧ ∀ k, k ∈ kws → clean_start k ∧ clean_start (String.rev k).
Proof.
  split; [reflexivity|].
  apply (keywords_of_answer (Demo.world true true) "pricing information" init
           "pricing, plans "). reflexivity.
Defined.

(** A detached anchor between two links of the home page. *)
Lemma analysis_stops_at_failing_anchor_witness :
  a_href detached_anchor = Raise "Element is not attached to the DOM"
  ∧ analyze_links (Demo.world true true) Demo.home Demo.home
      "pricing information"
      ([Demo.anchor "/pricing" "Pricing"] ++ detached_anchor
         :: [Demo.anchor "/docs" "Docs"]) [] init
    = analyze_links (Demo.world true true) Demo.home Demo.home
        "pricing information"
        ([Demo.anchor "/pricing" "Pricing"] ++ [detached_anchor]) [] init.
Proof.
  split; [reflexivity|].
  apply (analysis_stops_at_failing_anchor (Demo.world true true) Demo.home
           Demo.home "pricing information" [Demo.anchor "/pricing" "Pricing"]
           detached_anchor [Demo.anchor "/docs" "Docs"]
           "Element is not attached to the DOM"). reflexivity.
Defined.


Lemma crawl_page_twice_witness :
  crawl_page (Demo.world true true) 3 Demo.home Demo.home
    "pricing information" 0 2 init = Some demo_walk
  ∧ crawl_page (Demo.world true true) 3 Demo.home Demo.home
      "pricing information" 0 2 demo_walk = Some demo_walk.
Proof.
  split; [exact demo_walk_run|].
  exact (crawl_page_twice _ _ 3 _ _ _ _ _ _ _ demo_walk_run).
Defined.



Lemma depth_keys_bounded_witness :
  crawl_page (Demo.world true true) 3 Demo.home Demo.home
    "pricing information" 0 2 init = Some demo_walk
  ∧ ∀ d, is_Some (depth_data demo_walk !! d) → (0 ≤ d ≤ 2)%Z.
Proof.
  split; [exact demo_walk_run|].
  destruct (depth_keys_bounded (Demo.world true true) "pricing information" 2)
    as [Hpage _].
  intros d Hd. destruct (Hpage _ _ _ _ _ _ demo_walk_run d Hd) as [Hold|?];
    [|done].
  simpl in Hold. rewrite lookup_empty in Hold. by destruct Hold.
Defined.

Lemma page_records_match_depth_index_witness :
  records_inv init
  ∧ depth_index_inv init
  ∧ ∀ u, is_Some (page_data (Demo.run true true 2) !! u)
         ↔ ∃ d urls,
             depth_data (Demo.run true true 2) !! d = Some urls ∧ u ∈ urls.
Proof.
  split_and!; [exact records_inv_init|exact depth_index_inv_init|].
  destruct (page_records_match_depth_index (Demo.world true true)
              "example.com" "pricing information" 2 init records_inv_init
              depth_index_inv_init) as [_ Hiff].
  exact Hiff.
Defined.

Lemma report_counts_ordered_witness :
  relevance_inv init
  ∧ records_inv init
  ∧ size (page_data (Demo.run true true 2))
    ≤ md_relevant_pages
        (r_metadata (build_results (Demo.world true true)
                       (normalize_base_url "example.com")
                       "pricing information" (Demo.run true true 2)))
    ≤ size (visited_urls (Demo.run true true 2)).
Proof.
  split; [exact relevance_inv_init|]. split; [exact records_inv_init|].
  exact (report_counts_ordered (Demo.world true true) "example.com"
           "pricing information" 2 init relevance_inv_init records_inv_init).
Defined.


Lemma negative_depth_visits_nothing_witness :
  (-1 < 0)%Z
  ∧ visited_urls (Demo.run true true (-1)) = visited_urls init
  ∧ ∃ report,
      files (Demo.run true true (-1))
        !! "semantic_results_20241105_100000.json"
      = Some (Written report)
      ∧ md_total_pages (r_metadata report) = 0
      ∧ r_page_data report = ∅.
Proof.
  split; [lia|].
  destruct (negative_depth_visits_nothing (Demo.world true true) "example.com"
              "pricing information" (-1) init ltac:(lia))
    as ((Hv & _) & _ & Hfile).
  split; [exact Hv|].
  eexists. split; [|split].
  - unfold Demo.run. rewrite (Hfile eq_refl eq_refl). apply lookup_insert_eq.
  - reflexivity.
  - reflexivity.
Defined.
